(** * ember-i18n-export: the diff engine, the journal and the metadata summary

    A shallow embedding of [ember-i18n-export.js].  JavaScript objects used
    as dictionaries are association lists holding the object's own
    enumerable properties in [Object.keys] order; a CSV file is the list of
    row objects handed to the writer; a computation that can throw returns a
    [result].

    Limits of the model, and how the theorems respect them:
    - an object is given by its own properties; the members inherited from
      [Object.prototype] are modelled where the code tests a property of a
      plain object for truthiness or calls an inherited method on an object
      keyed by translation keys (the headers callback, array-contains);
      elsewhere a theorem that reads a property by a locale name assumes that
      the name is not the name of an inherited member ([inherited]);
    - an assignment to the property [__proto__] is modelled like any other
      assignment, though in JavaScript it creates no property; the theorems
      for which this matters leave the name out ([withoutProto]);
    - a new property is enumerated last; JavaScript enumerates names that are
      array indices first, so every theorem that speaks of an order assumes
      that the names it adds are not made of digits ([allDigits]);
    - [toUpperCase] and [toLowerCase] are the JavaScript functions on ASCII
      strings; every theorem that relies on a law of case conversion assumes
      that the strings it converts are ASCII ([isAscii]);
    - the packages [wordcount], [flat], [JSON.parse] and the file system are
      parameters of the sections that need them. *)

From Stdlib Require Import String Ascii List Bool Arith ZArith Lia.
Import ListNotations.
Open Scope string_scope.
Open Scope list_scope.

Set Implicit Arguments.

(** ** JavaScript values and objects *)

Module JS.

(** The values that reach a translation dictionary or a CSV cell. *)
Inductive value : Type :=
| Undefined
| Null
| Str (s : string)
| Num (n : Z).

(** [ToBoolean]. *)
Definition truthy (v : value) : bool :=
  match v with
  | Undefined | Null => false
  | Str s => negb (s =? "")
  | Num n => negb (n =? 0)%Z
  end.

(** [a === b]. *)
Definition strict_eq (a b : value) : bool :=
  match a, b with
  | Undefined, Undefined => true
  | Null, Null => true
  | Str s, Str t => (s =? t)
  | Num n, Num m => (n =? m)%Z
  | _, _ => false
  end.

(** Errors a run can stop on. *)
Inductive error : Type :=
| TypeError
| Error (msg : string).

Inductive result (A : Type) : Type :=
| Ok (a : A)
| Throw (e : error).
Arguments Ok {A} a.
Arguments Throw {A} e.

Definition bind {A B} (r : result A) (k : A -> result B) : result B :=
  match r with
  | Ok a => k a
  | Throw e => Throw e
  end.

(** An object: own enumerable properties, in [Object.keys] order. *)
Definition obj (V : Type) : Type := list (string * V).

Definition keys {V} (o : obj V) : list string := map fst o.

(** [o[k]] on an existing object: [None] stands for [undefined]. *)
Fixpoint get {V} (o : obj V) (k : string) : option V :=
  match o with
  | [] => None
  | (k', v) :: o' => if k =? k' then Some v else get o' k
  end.

(** [o[k] = v]: overwrite in place, or append a new property. *)
Fixpoint set {V} (k : string) (v : V) (o : obj V) : obj V :=
  match o with
  | [] => [(k, v)]
  | (k', v') :: o' => if k =? k' then (k', v) :: o' else (k', v') :: set k v o'
  end.

(** [hasOwnProperty]. *)
Definition has {V} (o : obj V) (k : string) : bool :=
  match get o k with Some _ => true | None => false end.

(** [forEachKeys(o, f)] of object-loops: [Object.keys(o).forEach], here with
    the accumulator the callback mutates made explicit. *)
Definition forEachKeys {S} (ks : list string) (f : S -> string -> S) (s : S) : S :=
  fold_left f ks s.

(** The same loop when the callback can throw. *)
Fixpoint forEachKeysM {S} (ks : list string) (f : S -> string -> result S) (s : S)
  : result S :=
  match ks with
  | [] => Ok s
  | k :: ks' => bind (f s k) (forEachKeysM ks' f)
  end.

(** [Array.prototype.includes] on an array of strings. *)
Definition includes (arr : list string) (x : string) : bool :=
  existsb (String.eqb x) arr.

(** [String.prototype.toUpperCase] / [toLowerCase], ASCII letters. *)
Definition upper_ascii (c : ascii) : ascii :=
  let n := nat_of_ascii c in
  if ((97 <=? n)%nat && (n <=? 122)%nat)%bool then ascii_of_nat (n - 32) else c.

Definition lower_ascii (c : ascii) : ascii :=
  let n := nat_of_ascii c in
  if ((65 <=? n)%nat && (n <=? 90)%nat)%bool then ascii_of_nat (n + 32) else c.

Fixpoint map_string (f : ascii -> ascii) (s : string) : string :=
  match s with
  | EmptyString => EmptyString
  | String c s' => String (f c) (map_string f s')
  end.

Definition toUpperCase : string -> string := map_string upper_ascii.
Definition toLowerCase : string -> string := map_string lower_ascii.

(** The strings on which the two functions above are the JavaScript ones. *)
Fixpoint isAscii (s : string) : bool :=
  match s with
  | EmptyString => true
  | String c s' => ((nat_of_ascii c <? 128)%nat && isAscii s')%bool
  end.

(** Names made of decimal digits only; every array index is one. *)
Definition isDigit (c : ascii) : bool :=
  ((48 <=? nat_of_ascii c)%nat && (nat_of_ascii c <=? 57)%nat)%bool.

Fixpoint onlyDigits (s : string) : bool :=
  match s with
  | EmptyString => true
  | String c s' => (isDigit c && onlyDigits s')%bool
  end.

Definition allDigits (s : string) : bool :=
  match s with
  | EmptyString => false
  | String _ _ => onlyDigits s
  end.

(** The members that a plain object inherits from [Object.prototype]; each is
    truthy. *)
Definition objectPrototypeMembers : list string :=
  ["__defineGetter__"; "__defineSetter__"; "__lookupGetter__"; "__lookupSetter__";
   "__proto__"; "constructor"; "hasOwnProperty"; "isPrototypeOf";
   "propertyIsEnumerable"; "toLocaleString"; "toString"; "valueOf"].

Definition inherited (k : string) : bool := includes objectPrototypeMembers k.

End JS.

Import JS.

Notation "x <- c1 ;; c2" := (bind c1 (fun x => c2))
  (at level 61, c1 at next level, right associativity).

(** ** Data model *)

(** translation key -> translation value *)
Definition LocaleDict : Type := obj value.
(** locale -> dictionary *)
Definition TranslationMap : Type := obj LocaleDict.
(** locale -> display column name override *)
Definition LocaleColumnNameMap : Type := obj string.
(** a CSV row: column name -> cell *)
Definition Row : Type := obj value.
(** a CSV writer: the rows written so far *)
Definition Writer : Type := list Row.

Definition write (w : Writer) (row : Row) : Writer := w ++ [row].

(** [d[k]] as a value. *)
Definition prop (d : LocaleDict) (k : string) : value :=
  match get d k with Some v => v | None => Undefined end.

(** [m[locale][k]]: reading a property of [undefined] is a [TypeError]. *)
Definition getIn (m : TranslationMap) (locale k : string) : result value :=
  match get m locale with
  | Some d => Ok (prop d k)
  | None => Throw TypeError
  end.

(** [m[locale]] for a [locale] that the enclosing loop took from
    [Object.keys(m)]. *)
Definition dictOf (m : TranslationMap) (locale : string) : LocaleDict :=
  match get m locale with Some d => d | None => [] end.

(** A translation key used as a property name: [null] reads property
    ["null"]. *)
Definition propName (translationKey : option string) : string :=
  match translationKey with Some k => k | None => "null" end.

Definition keyCell (translationKey : option string) : value :=
  match translationKey with Some k => Str k | None => Null end.

Module UpdateType.
Definition UPDATE : value := Str "UPDATE".
Definition INSERT : value := Str "NEW".
Definition DELETE : value := Str "DELETE".
End UpdateType.

(** ** Dependencies *)

(** array-contains: the array is turned into a hash object keyed by its
    elements, then [hash.hasOwnProperty(x)].  The hash is a plain object:
    once an element named [hasOwnProperty] is stored in it, the name no
    longer reaches the inherited method and the call is a [TypeError].  An
    element named [__proto__] is stored like any other; the theorems about
    this function leave that name out. *)
Definition arrayContains (arrays : list string) (x : string) : result bool :=
  let hash := fold_left (fun h e => set (snd e) (fst e) h)
                (combine (seq 0 (length arrays)) arrays) ([] : obj nat) in
  if has hash "hasOwnProperty" then Throw TypeError else Ok (has hash x).

(** array-difference: the elements of the first array that the second lacks,
    followed by the elements of the second that the first lacks. *)
Definition arrayDiff (a b : list string) : list string :=
  filter (fun x => negb (includes b x)) a ++ filter (fun x => negb (includes a x)) b.

(** ** Column names *)

(** [!columnName] for the result of [localeColumnNames[locale]]. *)
Definition noColumnName (columnName : option string) : bool :=
  match columnName with
  | Some c => c =? ""
  | None => true
  end.

Definition orLocale (columnName : option string) (locale : string) : string :=
  match columnName with Some c => c | None => locale end.

Definition getLocaleColumnName (locale : string) (localeColumnNames : LocaleColumnNameMap)
  : string :=
  let columnName := get localeColumnNames locale in
  let columnName := if noColumnName columnName then locale
                    else orLocale columnName locale in
  toUpperCase columnName.

Definition getColumnNameFromLocale (locale : string) (localeColumnNames : LocaleColumnNameMap)
  : string :=
  let columnName := get localeColumnNames locale in
  let columnName := if noColumnName columnName then locale
                    else orLocale columnName locale in
  toUpperCase columnName.

(** [for (let locale in localeColumnNames)] with the own-property test; the
    first locale whose override is the column name. *)
Fixpoint findLocale (columnName : string) (entries : LocaleColumnNameMap)
  (whole : LocaleColumnNameMap) : option string :=
  match entries with
  | [] => None
  | (locale, _) :: rest =>
      if has whole locale && (match get whole locale with
                              | Some c => columnName =? c
                              | None => false
                              end)
      then Some locale
      else findLocale columnName rest whole
  end.

Definition getLocaleFromColumnName (columnName : string)
  (localeColumnNames : LocaleColumnNameMap) : string :=
  match findLocale columnName localeColumnNames localeColumnNames with
  | Some locale => locale
  | None => toLowerCase columnName
  end.

(** ** The diff engine *)

(** The callback of the inner loop of [getTranslationKeys]: add the
    translation key if not included. *)
Definition pushNew (translationKeys : list string) (translationKey : string)
  : result (list string) :=
  included <- arrayContains translationKeys translationKey ;;
  if negb included
  then Ok (translationKeys ++ [translationKey])
  else Ok translationKeys.

(** The canonical key set: first-seen order over locales, then over each
    locale's keys. *)
Definition getTranslationKeys (translationMap : TranslationMap) : result (list string) :=
  forEachKeysM (keys translationMap)
    (fun translationKeys localKey =>
       forEachKeysM (keys (dictOf translationMap localKey)) pushNew translationKeys)
    [].

Definition getInsertedTranslationKeys (oldTranslationMap newTranslationMap : TranslationMap)
  : result (list string) :=
  oldTranslationKeys <- getTranslationKeys oldTranslationMap ;;
  newTranslationKeys <- getTranslationKeys newTranslationMap ;;
  let diffTranslationKeys := arrayDiff oldTranslationKeys newTranslationKeys in
  Ok (filter (fun translationKey =>
                negb (includes oldTranslationKeys translationKey)
                && includes newTranslationKeys translationKey)
        diffTranslationKeys).

Definition getDeletedTranslationKeys (oldTranslationMap newTranslationMap : TranslationMap)
  : result (list string) :=
  oldTranslationKeys <- getTranslationKeys oldTranslationMap ;;
  newTranslationKeys <- getTranslationKeys newTranslationMap ;;
  let diffTranslationKeys := arrayDiff oldTranslationKeys newTranslationKeys in
  Ok (filter (fun translationKey =>
                includes oldTranslationKeys translationKey
                && negb (includes newTranslationKeys translationKey))
        diffTranslationKeys).

(** The test of the inner loop of [getUpdatedTranslationKeys]; [&&] evaluates
    left to right, so [newTranslationMap[localKey]] is only read once the old
    value is truthy, and array-contains is only called once the two values
    differ. *)
Definition isUpdated (oldTranslationMap newTranslationMap : TranslationMap)
  (deletedTranslationKeys : list string) (localKey translationKey : string) : result bool :=
  oldValue <- getIn oldTranslationMap localKey translationKey ;;
  if truthy oldValue then
    newValue <- getIn newTranslationMap localKey translationKey ;;
    if negb (strict_eq oldValue newValue)
    then
      deleted <- arrayContains deletedTranslationKeys translationKey ;;
      Ok (negb deleted)
    else Ok false
  else Ok false.

Definition getUpdatedTranslationKeys (oldTranslationMap newTranslationMap : TranslationMap)
  : result (list string) :=
  deletedTranslationKeys <-
    getDeletedTranslationKeys oldTranslationMap newTranslationMap ;;
  forEachKeysM (keys oldTranslationMap)
    (fun updatedTranslationKeys localKey =>
       forEachKeysM (keys (dictOf oldTranslationMap localKey))
         (fun updatedTranslationKeys translationKey =>
            b <- isUpdated oldTranslationMap newTranslationMap deletedTranslationKeys
                   localKey translationKey ;;
            if b then Ok (updatedTranslationKeys ++ [translationKey])
            else Ok updatedTranslationKeys)
         updatedTranslationKeys)
    [].

(** Arrays are truthy, so [xs && xs.length > 0] is [xs.length > 0]. *)
Definition isJournalGenerated (insertedTranslationKeys updatedTranslationKeys
  deletedTranslationKeys : list string) (showDeletedInJournal : bool) : bool :=
  (0 <? length insertedTranslationKeys)%nat
  || (0 <? length updatedTranslationKeys)%nat
  || (showDeletedInJournal && (0 <? length deletedTranslationKeys)%nat).

(** ** Rows *)

Definition writeTranslationRow (writer : Writer) (translationKey : option string)
  (translationMap : TranslationMap) (translationKeyColumnName : string)
  (localeColumnNames : LocaleColumnNameMap) : Writer :=
  let row : Row := set translationKeyColumnName (keyCell translationKey) [] in
  let row :=
    forEachKeys (keys translationMap)
      (fun row localKey =>
         set (getLocaleColumnName localKey localeColumnNames)
           (prop (dictOf translationMap localKey) (propName translationKey)) row)
      row in
  write writer row.

Definition writeJournalRow (writer : Writer) (translationKey : option string)
  (translationMap oldTranslationMap : TranslationMap) (translationKeyColumnName : string)
  (localeColumnNames : LocaleColumnNameMap) (showOldValueInJournal : bool)
  (updateType : value) : Writer :=
  let row : Row := set translationKeyColumnName (keyCell translationKey) [] in
  let row :=
    forEachKeys (keys translationMap)
      (fun row localKey =>
         set (getLocaleColumnName localKey localeColumnNames)
           (prop (dictOf translationMap localKey) (propName translationKey)) row)
      row in
  let row :=
    if showOldValueInJournal then
      forEachKeys (keys oldTranslationMap)
        (fun row localKey =>
           set (getLocaleColumnName localKey localeColumnNames ++ "_OLD")%string
             (prop (dictOf oldTranslationMap localKey) (propName translationKey)) row)
        row
    else row in
  let row := set "UPDATE_TYPE" updateType row in
  write writer row.

Definition writeJournalRows (writer : Writer) (translationKeys : list string)
  (translationMap oldTranslationMap : TranslationMap) (translationKeyColumnName : string)
  (localeColumnNames : LocaleColumnNameMap) (showOldValueInJournal : bool)
  (updateType : value) : Writer :=
  fold_left
    (fun writer translationKey =>
       writeJournalRow writer (Some translationKey) translationMap oldTranslationMap
         translationKeyColumnName localeColumnNames showOldValueInJournal updateType)
    translationKeys writer.

(** ** Files: each generator returns the rows it wrote to a fresh writer *)

Definition createWriter : Writer := [].

Definition generateTranslationFile (translationMap : TranslationMap)
  (translationKeys : list string) (translationKeyColumnName : string)
  (localeColumnNames : LocaleColumnNameMap) : Writer :=
  let writer := createWriter in
  let writer := writeTranslationRow writer None translationMap
                  translationKeyColumnName localeColumnNames in
  let writer :=
    fold_left
      (fun writer translationKey =>
         writeTranslationRow writer (Some translationKey) translationMap
           translationKeyColumnName localeColumnNames)
      translationKeys writer in
  writeTranslationRow writer None translationMap translationKeyColumnName localeColumnNames.

(** The two separator rows are written without an update type. *)
Definition generateJournalFile (translationMap oldTranslationMap : TranslationMap)
  (insertedTranslationKeys updatedTranslationKeys deletedTranslationKeys : list string)
  (translationKeyColumnName : string) (localeColumnNames : LocaleColumnNameMap)
  (showDeletedInJournal showOldValueInJournal : bool) : Writer :=
  let writer := createWriter in
  let writer := writeJournalRow writer None translationMap oldTranslationMap
                  translationKeyColumnName localeColumnNames showOldValueInJournal
                  Undefined in
  let writer := writeJournalRows writer insertedTranslationKeys translationMap
                  oldTranslationMap translationKeyColumnName localeColumnNames
                  showOldValueInJournal UpdateType.INSERT in
  let writer := writeJournalRows writer updatedTranslationKeys translationMap
                  oldTranslationMap translationKeyColumnName localeColumnNames
                  showOldValueInJournal UpdateType.UPDATE in
  let writer :=
    if showDeletedInJournal then
      writeJournalRows writer deletedTranslationKeys translationMap
        oldTranslationMap translationKeyColumnName localeColumnNames
        showOldValueInJournal UpdateType.DELETE
    else writer in
  writeJournalRow writer None translationMap oldTranslationMap
    translationKeyColumnName localeColumnNames showOldValueInJournal Undefined.

(** ** Options and the snapshot reconstructor *)

Record Options : Type := {
  inputDir : string;
  inputFile : string;
  outputDir : string;
  outputFile : string;
  journalFile : string;
  metaDataFile : string;
  localeColumnNames : LocaleColumnNameMap;
  translationKeyColumnName : string;
  showDeletedInJournal : bool;
  showOldValueInJournal : bool
}.

(** A parsed CSV data row, as csv-parser hands it over. *)
Definition Data : Type := obj string.

Definition cell (data : Data) (column : string) : value :=
  match get data column with Some s => Str s | None => Undefined end.

(** [oldTranslationMap[locale]] read for its truthiness: an own property of
    the previous map is a dictionary, which is truthy, and so is every member
    that the map, a plain object, inherits. *)
Definition isCreated (oldTranslationMap : TranslationMap) (locale : string) : bool :=
  has oldTranslationMap locale || inherited locale.

(** The body of [headers.forEach] in the ['headers'] callback, on the pair of
    the previous map and the [hasTranslationKey] flag. *)
Definition headerStep (opts : Options) (st : TranslationMap * bool) (header : string)
  : TranslationMap * bool :=
  let '(oldTranslationMap, hasTranslationKey) := st in
  if negb (header =? translationKeyColumnName opts) then
    if negb (isCreated oldTranslationMap
               (getLocaleFromColumnName header (localeColumnNames opts)))
    then (set (getLocaleFromColumnName header (localeColumnNames opts)) []
            oldTranslationMap, hasTranslationKey)
    else (oldTranslationMap, hasTranslationKey)
  else (oldTranslationMap, true).

(** The ['headers'] callback. *)
Definition onHeaders (opts : Options) (oldTranslationMap : TranslationMap)
  (headers : list string) : result TranslationMap :=
  let '(oldTranslationMap, hasTranslationKey) :=
    fold_left (headerStep opts) headers (oldTranslationMap, false) in
  if negb hasTranslationKey
  then Throw (Error "There is no translation key column defined.")
  else Ok oldTranslationMap.

(** The ['data'] callback: a row with a truthy key cell fills every locale of
    the previous map. *)
Definition onData (opts : Options) (oldTranslationMap : TranslationMap) (data : Data)
  : TranslationMap :=
  forEachKeys (keys oldTranslationMap)
    (fun oldTranslationMap localKey =>
       match get data (translationKeyColumnName opts) with
       | Some translationKey =>
           if truthy (Str translationKey) then
             set localKey
               (set translationKey
                  (cell data (getColumnNameFromLocale localKey (localeColumnNames opts)))
                  (dictOf oldTranslationMap localKey))
               oldTranslationMap
           else oldTranslationMap
       | None => oldTranslationMap
       end)
    oldTranslationMap.

(** The journal step of the ['end'] callback: the file is generated only
    when [isJournalGenerated] holds. *)
Definition journalIfGenerated (opts : Options)
  (translationMap oldTranslationMap : TranslationMap)
  (insertedTranslationKeys updatedTranslationKeys deletedTranslationKeys : list string)
  : option Writer :=
  if isJournalGenerated insertedTranslationKeys updatedTranslationKeys
       deletedTranslationKeys (showDeletedInJournal opts)
  then Some (generateJournalFile translationMap oldTranslationMap
               insertedTranslationKeys updatedTranslationKeys deletedTranslationKeys
               (translationKeyColumnName opts) (localeColumnNames opts)
               (showDeletedInJournal opts) (showOldValueInJournal opts))
  else None.

(** What a run leaves in the output directory. *)
Record Outputs : Type := {
  translationFile : Writer;
  journal : option Writer;
  metaData : Writer
}.

(** [`${inputDir}${locale}/${inputFile}`]. *)
Definition translationFilePath (inputDir locale inputFile : string) : string :=
  (inputDir ++ locale ++ "/" ++ inputFile)%string.

(** The rows that [writeJournalRow] adds to a writer for one key. *)
Definition journalRowOf (translationMap oldTranslationMap : TranslationMap)
  (translationKeyColumnName : string) (localeColumnNames : LocaleColumnNameMap)
  (showOldValueInJournal : bool) (translationKey : option string) (updateType : value)
  : Writer :=
  writeJournalRow [] translationKey translationMap oldTranslationMap
    translationKeyColumnName localeColumnNames showOldValueInJournal updateType.

Section Run.

(** [wordcount]. *)
Variable wordCount : value -> Z.
(** [getFlattenTranslations]: the embedded object literal, parsed by
    [JSON.parse] and flattened by [flat]; throws on a malformed source. *)
Variable getFlattenTranslations : string -> result LocaleDict.
(** [fs.readdirSync], [fs.statSync(..).isDirectory()], and
    [fs.existsSync] / [fs.readFileSync] (a missing file is [None]). *)
Variable readdirSync : string -> list string.
Variable isDirectory : string -> bool.
Variable readFileSync : string -> option string.
(** [fs.existsSync] and the csv-parser stream of a previous export: its
    header row and its data rows. *)
Variable readCsv : string -> option (list string * list Data).

Definition getLocales (inputDir : string) : list string :=
  filter (fun file => isDirectory (inputDir ++ file)%string) (readdirSync inputDir).

(** The callback of [locales.forEach] in [getTranslationMap]: if there is no
    translation file but a locale, leave it blank. *)
Definition loadLocale (inputDir inputFile : string) (translationsMap : TranslationMap)
  (locale : string) : result TranslationMap :=
  let translationFilePath := translationFilePath inputDir locale inputFile in
  match readFileSync translationFilePath with
  | Some data =>
      flat <- getFlattenTranslations data ;;
      Ok (set locale flat translationsMap)
  | None => Ok (set locale [] translationsMap)
  end.

Definition getTranslationMap (inputDir inputFile : string) : result TranslationMap :=
  let locales := getLocales inputDir in
  forEachKeysM locales (loadLocale inputDir inputFile) [].

Definition writeMetaDataRow (writer : Writer) (localeKey : string)
  (translationMap : TranslationMap) : Writer :=
  let row : Row := set "LOCALE" (Str localeKey) [] in
  let localeWordCount := 0%Z in
  let keyCount := 0%Z in
  let localeWordCount :=
    forEachKeys (keys (dictOf translationMap localeKey))
      (fun localeWordCount translationKey =>
         (localeWordCount
          + wordCount (prop (dictOf translationMap localeKey) translationKey))%Z)
      localeWordCount in
  let row := set "NUMBER_OF_WORDS" (Num localeWordCount) row in
  let row := set "NUMBER_OF_KEYS" (Num keyCount) row in
  write writer row.

Definition generateTranslationMetaFile (translationMap : TranslationMap) : Writer :=
  let writer := createWriter in
  let writer := write writer [("LOCALE", Str ""); ("NUMBER_OF_KEYS", Str "");
                              ("NUMBER_OF_WORDS", Str "")] in
  forEachKeys (keys translationMap)
    (fun writer localKey => writeMetaDataRow writer localKey translationMap)
    writer.

(** The ['end'] callback: the three reports once the previous map is
    rebuilt. *)
Definition onEnd (opts : Options) (translationMap : TranslationMap)
  (translationKeys : list string) (oldTranslationMap : TranslationMap)
  : result Outputs :=
  let translations :=
    generateTranslationFile translationMap translationKeys
      (translationKeyColumnName opts) (localeColumnNames opts) in
  insertedTranslationKeys <-
    getInsertedTranslationKeys oldTranslationMap translationMap ;;
  updatedTranslationKeys <- getUpdatedTranslationKeys oldTranslationMap translationMap ;;
  deletedTranslationKeys <-
    getDeletedTranslationKeys oldTranslationMap translationMap ;;
  let journal :=
    journalIfGenerated opts translationMap oldTranslationMap
      insertedTranslationKeys updatedTranslationKeys deletedTranslationKeys in
  Ok {| translationFile := translations;
        journal := journal;
        metaData := generateTranslationMetaFile translationMap |}.

Definition exportTranslations (opts : Options) : result Outputs :=
  translationMap <- getTranslationMap (inputDir opts) (inputFile opts) ;;
  translationKeys <- getTranslationKeys translationMap ;;
  let outputFilePath := (outputDir opts ++ "/" ++ outputFile opts)%string in
  match readCsv outputFilePath with
  | Some (headers, rows) =>
      oldTranslationMap <- onHeaders opts [] headers ;;
      let oldTranslationMap := fold_left (onData opts) rows oldTranslationMap in
      onEnd opts translationMap translationKeys oldTranslationMap
  | None =>
      Ok {| translationFile :=
              generateTranslationFile translationMap translationKeys
                (translationKeyColumnName opts) (localeColumnNames opts);
            journal := None;
            metaData := generateTranslationMetaFile translationMap |}
  end.

End Run.

(** ** Default options and sample maps *)

(** The defaults of [opts]; [stamp] is the time stamp of the run. *)
Definition defaultOpts (stamp : string) : Options := {|
  inputDir := "app/locales/";
  inputFile := "translations.js";
  outputDir := "i18n-exports";
  outputFile := "translations.csv";
  journalFile := ("translations-updates-" ++ stamp ++ ".csv")%string;
  metaDataFile := "translations-meta.csv";
  localeColumnNames := [];
  translationKeyColumnName := "SYSTEM_KEY";
  showDeletedInJournal := false;
  showOldValueInJournal := false
|}.

Module Sample.

(** Scenario A: [{en: {a: "hi"}, fr: {a: "salut"}}]. *)
Definition greetings : TranslationMap :=
  [("en", [("a", Str "hi")]); ("fr", [("a", Str "salut")])].

(** Both locales reworded: [{en: {a: "hello"}, fr: {a: "bonjour"}}]. *)
Definition reworded : TranslationMap :=
  [("en", [("a", Str "hello")]); ("fr", [("a", Str "bonjour")])].

(** A previous export that still has a [de] column:
    [{en: {a: "hi"}, de: {a: "hallo"}}]. *)
Definition withGerman : TranslationMap :=
  [("en", [("a", Str "hi")]); ("de", [("a", Str "hallo")])].

(** The current translations once the [de] directory is gone:
    [{en: {a: "hello"}}]. *)
Definition englishOnly : TranslationMap :=
  [("en", [("a", Str "hello")])].

(** Scenario B: [{en: {a: "hi"}}] and [{en: {a: "hi", b: "bye"}}]. *)
Definition hi : TranslationMap := [("en", [("a", Str "hi")])].
Definition hiBye : TranslationMap := [("en", [("a", Str "hi"); ("b", Str "bye")])].

(** Scenario D: [{en: {a: "hi", z: "zed"}}], then [hi]. *)
Definition hiZed : TranslationMap := [("en", [("a", Str "hi"); ("z", Str "zed")])].

(** Scenario E: [{fr: {a: "bonjour", b: ""}}]. *)
Definition french : TranslationMap :=
  [("fr", [("a", Str "bonjour"); ("b", Str "")])].

(** A dictionary whose first key is [hasOwnProperty]:
    [{en: {hasOwnProperty: "x", b: "y"}}]. *)
Definition ownMethod : TranslationMap :=
  [("en", [("hasOwnProperty", Str "x"); ("b", Str "y")])].

(** The override of the README: [{"en": "English", "fr": "French"}]. *)
Definition readmeNames : LocaleColumnNameMap := [("en", "English"); ("fr", "French")].

(** An override that is already upper case. *)
Definition upperNames : LocaleColumnNameMap := [("en", "ENGLISH"); ("fr", "FRENCH")].

(** A locale tree in which only [en] has a translation file. *)
Definition readdirSync (dir : string) : list string :=
  if dir =? "app/locales/" then ["en"; "fr"] else [].
Definition isDirectory (file : string) : bool := true.
Definition readFileSync (file : string) : option string :=
  if file =? "app/locales/en/translations.js"
  then Some "export default { a: 'hi' };"
  else None.
Definition getFlattenTranslations (data : string) : result LocaleDict :=
  Ok [("a", Str "hi")].

End Sample.

(** ** The classification of a key *)

(** [k] is in the canonical key set of [m]. *)
Definition Canonical (m : TranslationMap) (k : string) : Prop :=
  exists translationKeys, getTranslationKeys m = Ok translationKeys /\ In k translationKeys.

Definition Inserted (previousMap currentMap : TranslationMap) (k : string) : Prop :=
  exists inserted,
    getInsertedTranslationKeys previousMap currentMap = Ok inserted /\ In k inserted.

Definition Deleted (previousMap currentMap : TranslationMap) (k : string) : Prop :=
  exists deleted,
    getDeletedTranslationKeys previousMap currentMap = Ok deleted /\ In k deleted.

(** [k] is classified as updated when the computation returns an array that
    lists it. *)
Definition Updated (previousMap currentMap : TranslationMap) (k : string) : Prop :=
  exists updated,
    getUpdatedTranslationKeys previousMap currentMap = Ok updated /\ In k updated.

(** Some locale present in both maps has a truthy previous value for [k] that
    differs from the current value. *)
Definition changedInSomeLocale (previousMap currentMap : TranslationMap) (k : string)
  : Prop :=
  exists locale previousDict currentDict,
    get previousMap locale = Some previousDict
    /\ get currentMap locale = Some currentDict
    /\ truthy (prop previousDict k) = true
    /\ strict_eq (prop previousDict k) (prop currentDict k) = false.

(** The right-hand side of the definition of Updated. *)
Definition UpdatedSpec (previousMap currentMap : TranslationMap) (k : string) : Prop :=
  Canonical previousMap k
  /\ Canonical currentMap k
  /\ changedInSomeLocale previousMap currentMap k
  /\ ~ Deleted previousMap currentMap k.

(** The array that [getTranslationKeys] returns when it returns: the keys in
    first-seen order, each once. *)
Definition addIfNew (translationKeys : list string) (translationKey : string)
  : list string :=
  if includes translationKeys translationKey
  then translationKeys
  else translationKeys ++ [translationKey].

Definition canonicalKeys (m : TranslationMap) : list string :=
  fold_left (fun acc locale => fold_left addIfNew (keys (dictOf m locale)) acc)
    (keys m) [].

(** No dictionary of the map has a key named [__proto__]: an assignment to
    that name sets the prototype and creates no property, so the maps that
    the loader and the snapshot reconstructor build are of this kind. *)
Definition withoutProto (m : TranslationMap) : bool :=
  forallb (fun entry => negb (includes (keys (snd entry)) "__proto__")) m.

(** ** Rows taken one at a time *)

(** The rows that [writeTranslationRow] adds to a writer for one key. *)
Definition translationRowOf (translationMap : TranslationMap)
  (translationKeyColumnName : string) (localeColumnNames : LocaleColumnNameMap)
  (translationKey : option string) : Writer :=
  writeTranslationRow [] translationKey translationMap translationKeyColumnName
    localeColumnNames.

(** [oldTranslationMap[localKey][translationKey] = data[column of localKey]]:
    the assignment of the ['data'] callback for one locale. *)
Definition fillLocale (opts : Options) (data : Data) (translationKey : string)
  (oldTranslationMap : TranslationMap) (localKey : string) : TranslationMap :=
  set localKey
    (set translationKey
       (cell data (getColumnNameFromLocale localKey (localeColumnNames opts)))
       (dictOf oldTranslationMap localKey))
    oldTranslationMap.

(** ** The embedded object literal of a translation file *)

Module Parser.

(** [s.indexOf(c)] for a one-character [c]; [None] stands for [-1]. *)
Fixpoint indexOf (c : ascii) (s : string) : option nat :=
  match s with
  | EmptyString => None
  | String a s' => if Ascii.eqb a c then Some 0 else option_map S (indexOf c s')
  end.

(** [s.lastIndexOf(c)] for a one-character [c]. *)
Fixpoint lastIndexOf (c : ascii) (s : string) : option nat :=
  match s with
  | EmptyString => None
  | String a s' =>
      match lastIndexOf c s' with
      | Some i => Some (S i)
      | None => if Ascii.eqb a c then Some 0 else None
      end
  end.

(** [s.substring(a, b)]: the two indices are swapped when [a > b]. *)
Definition substring (a b : nat) (s : string) : string :=
  String.substring (Nat.min a b) (Nat.max a b - Nat.min a b) s.

Section WithJSON.

(** The parsed JSON value, [JSON.parse], its truthiness, and [flat], whose
    result is [None] when it is falsy. *)
Variable json : Type.
Variable JSON_parse : string -> result json.
Variable isTruthy : json -> bool.
Variable flatten : json -> option LocaleDict.

Definition getTranslations (translationsData : string) : result json :=
  let translationsStartIndex := indexOf "{" translationsData in
  let translationsEndIndex := lastIndexOf "}" translationsData in
  match translationsStartIndex, translationsEndIndex with
  | Some translationsStartIndex, Some translationsEndIndex =>
      translations <-
        JSON_parse (substring translationsStartIndex (translationsEndIndex + 1)
                      translationsData) ;;
      if negb (isTruthy translations)
      then Throw (Error "Unable to parse the translations.")
      else Ok translations
  | _, _ => Throw (Error "Unable to parse the translations.")
  end.

Definition getFlattenTranslations (translationData : string) : result LocaleDict :=
  translations <- getTranslations translationData ;;
  match flatten translations with
  | Some flattenTranslations => Ok flattenTranslations
  | None => Throw (Error "Unable to flatten the translations.")
  end.

End WithJSON.

End Parser.

(** ** The earlier metadata row *)

Module Legacy.

(** [writeMetaDataRow] as it was before the loops were rewritten with
    [forEachKeys]: a [for ... in] loop that counts every key and adds the
    words of the own ones. *)
Definition writeMetaDataRow (wordCount : value -> Z) (writer : Writer) (locale : string)
  (translationMap : TranslationMap) : Writer :=
  let row : Row := set "LOCALE" (Str locale) [] in
  let localeWordCount := 0%Z in
  let keyCount := 0%Z in
  let '(localeWordCount, keyCount) :=
    fold_left
      (fun (st : Z * Z) translationKey =>
         let '(localeWordCount, keyCount) := st in
         let keyCount := (keyCount + 1)%Z in
         if has (dictOf translationMap locale) translationKey
         then ((localeWordCount
                + wordCount (prop (dictOf translationMap locale) translationKey))%Z,
               keyCount)
         else (localeWordCount, keyCount))
      (keys (dictOf translationMap locale)) (localeWordCount, keyCount) in
  let row := set "NUMBER_OF_WORDS" (Num localeWordCount) row in
  let row := set "NUMBER_OF_KEYS" (Num keyCount) row in
  write writer row.

End Legacy.

(** ** Facts about objects and arrays *)

Lemma strict_eq_refl (v : value) : strict_eq v v = true.
Proof.
  destruct v; simpl; auto using String.eqb_refl, Z.eqb_refl.
Qed.

Section ObjectFacts.

Context {V : Type}.
Implicit Types (o : obj V) (k : string) (v : V).

Lemma get_set_same o k v : get (set k v o) k = Some v.
Proof.
  induction o as [|[k' v'] o IH]; simpl.
  - now rewrite String.eqb_refl.
  - destruct (k =? k') eqn:E; simpl; rewrite E; auto.
Qed.

Lemma get_set_other o k k' v : k <> k' -> get (set k v o) k' = get o k'.
Proof.
  intros Hne.
  induction o as [|[k0 v0] o IH]; simpl.
  - destruct (k' =? k) eqn:E; auto.
    apply String.eqb_eq in E. congruence.
  - destruct (k =? k0) eqn:E; simpl.
    + apply String.eqb_eq in E. subst k0.
      destruct (k' =? k) eqn:E'; auto.
      apply String.eqb_eq in E'. congruence.
    + now rewrite IH.
Qed.

Lemma get_Some_keys o k v : get o k = Some v -> In k (keys o).
Proof.
  induction o as [|[k' v'] o IH]; simpl; [discriminate|].
  destruct (k =? k') eqn:E; intros H.
  - apply String.eqb_eq in E. now left.
  - right. now apply IH.
Qed.

Lemma keys_get_Some o k : In k (keys o) -> exists v, get o k = Some v.
Proof.
  induction o as [|[k' v'] o IH]; simpl; [tauto|].
  intros [-> | Hin].
  - rewrite String.eqb_refl. eauto.
  - destruct (k =? k'); eauto.
Qed.

Lemma get_None_keys o k : get o k = None -> ~ In k (keys o).
Proof.
  intros Hget Hin. apply keys_get_Some in Hin as [v Hv]. congruence.
Qed.

Lemma has_true_iff o k : has o k = true <-> In k (keys o).
Proof.
  unfold has. split.
  - destruct (get o k) eqn:E; [intros _; eauto using get_Some_keys | discriminate].
  - intros Hin. apply keys_get_Some in Hin as [v ->]. reflexivity.
Qed.

Lemma has_set o k k' v : has (set k v o) k' = true <-> k = k' \/ has o k' = true.
Proof.
  unfold has. destruct (string_dec k k') as [-> | Hne].
  - rewrite get_set_same. tauto.
  - rewrite get_set_other by assumption. intuition congruence.
Qed.

End ObjectFacts.

Lemma includes_In (arr : list string) (x : string) : includes arr x = true <-> In x arr.
Proof.
  unfold includes. rewrite existsb_exists. split.
  - intros [y [Hy E]]. apply String.eqb_eq in E. now subst.
  - intros H. exists x. split; [assumption | apply String.eqb_refl].
Qed.

Lemma includes_false (arr : list string) (x : string) :
  includes arr x = false <-> ~ In x arr.
Proof.
  rewrite <- includes_In. destruct (includes arr x); intuition congruence.
Qed.

(** The hash object of array-contains has exactly the array's elements as
    property names. *)
Lemma hash_has (l : list (nat * string)) (h : obj nat) (x : string) :
  has (fold_left (fun h e => set (snd e) (fst e) h) l h) x = true
  <-> has h x = true \/ In x (map snd l).
Proof.
  revert h. induction l as [|[i s] l IH]; intros h; simpl.
  - tauto.
  - rewrite IH, has_set. intuition (subst; auto).
Qed.

Lemma hash_is_array (arr : list string) (x : string) :
  has (fold_left (fun h e => set (snd e) (fst e) h)
         (combine (seq 0 (length arr)) arr) ([] : obj nat)) x
  = includes arr x.
Proof.
  assert (Hsnd : map snd (combine (seq 0 (length arr)) arr) = arr).
  { generalize 0%nat. induction arr as [|a arr IH]; intros n; simpl; [reflexivity|].
    now rewrite IH. }
  destruct (includes arr x) eqn:E.
  - apply hash_has. right. rewrite Hsnd. now apply includes_In.
  - apply includes_false in E.
    destruct (has _ x) eqn:H; [|reflexivity].
    apply hash_has in H. rewrite Hsnd in H. destruct H as [H | H]; [|contradiction].
    unfold has in H. simpl in H. discriminate.
Qed.

(** array-contains throws when the array holds [hasOwnProperty] and tests
    membership otherwise. *)
Lemma arrayContains_spec (arr : list string) (x : string) :
  arrayContains arr x
  = if includes arr "hasOwnProperty" then Throw TypeError else Ok (includes arr x).
Proof.
  unfold arrayContains. now rewrite !hash_is_array.
Qed.

Lemma arrayContains_Ok (arr : list string) (x : string) (b : bool) :
  arrayContains arr x = Ok b ->
  b = includes arr x /\ includes arr "hasOwnProperty" = false.
Proof.
  rewrite arrayContains_spec.
  destruct (includes arr "hasOwnProperty"); [discriminate|].
  intros [= <-]. auto.
Qed.

Lemma arrayDiff_In (a b : list string) (x : string) :
  In x (arrayDiff a b) <-> (In x a /\ ~ In x b) \/ (In x b /\ ~ In x a).
Proof.
  unfold arrayDiff. rewrite in_app_iff, !filter_In, !negb_true_iff, !includes_false.
  tauto.
Qed.

(** ** Loops whose callback can throw *)

Lemma forEachKeysM_pure {S} (stepM : S -> string -> result S) (step : S -> string -> S)
  (ks : list string) (acc r : S) :
  (forall acc k r, stepM acc k = Ok r -> r = step acc k) ->
  forEachKeysM ks stepM acc = Ok r -> r = fold_left step ks acc.
Proof.
  intros Hstep. revert acc. induction ks as [|k ks IH]; intros acc; simpl.
  - now intros [= <-].
  - destruct (stepM acc k) as [acc1|e] eqn:E; simpl; [|discriminate].
    apply Hstep in E. subst acc1. apply IH.
Qed.

Lemma forEachKeysM_error {S} (stepM : S -> string -> result S) (P : error -> Prop)
  (ks : list string) (acc : S) (e : error) :
  (forall acc k e, stepM acc k = Throw e -> P e) ->
  forEachKeysM ks stepM acc = Throw e -> P e.
Proof.
  intros Hstep. revert acc. induction ks as [|k ks IH]; intros acc; simpl.
  - discriminate.
  - destruct (stepM acc k) as [acc1|e1] eqn:E; simpl.
    + apply IH.
    + intros [= <-]. eapply Hstep, E.
Qed.

(** ** The canonical key set *)

Lemma pushNew_spec (acc : list string) (k : string) :
  pushNew acc k
  = if includes acc "hasOwnProperty" then Throw TypeError else Ok (addIfNew acc k).
Proof.
  unfold pushNew, addIfNew. rewrite arrayContains_spec.
  destruct (includes acc "hasOwnProperty"); [reflexivity|].
  simpl. destruct (includes acc k); reflexivity.
Qed.

Section CanonicalKeys.

Lemma addIfNew_In acc k x : In x (addIfNew acc k) <-> In x acc \/ x = k.
Proof.
  unfold addIfNew. destruct (includes acc k) eqn:E; simpl.
  - apply includes_In in E. intuition (subst; auto).
  - rewrite in_app_iff. simpl. intuition.
Qed.

Lemma addIfNew_NoDup acc k : NoDup acc -> NoDup (addIfNew acc k).
Proof.
  unfold addIfNew. intros Hnd. destruct (includes acc k) eqn:E; simpl; auto.
  apply includes_false in E.
  apply NoDup_app; auto.
  - repeat constructor. simpl. tauto.
  - intros x Hx [<- | []]. contradiction.
Qed.

Lemma inner_In ks acc x : In x (fold_left addIfNew ks acc) <-> In x acc \/ In x ks.
Proof.
  revert acc. induction ks as [|k ks IH]; intros acc; simpl.
  - tauto.
  - rewrite IH, addIfNew_In. intuition.
Qed.

Lemma inner_NoDup ks acc : NoDup acc -> NoDup (fold_left addIfNew ks acc).
Proof.
  revert acc. induction ks as [|k ks IH]; intros acc H; simpl; auto using addIfNew_NoDup.
Qed.

Variable m : TranslationMap.

Lemma outer_In ls acc x :
  In x (fold_left (fun acc l => fold_left addIfNew (keys (dictOf m l)) acc) ls acc)
  <-> In x acc \/ exists l, In l ls /\ In x (keys (dictOf m l)).
Proof.
  revert acc. induction ls as [|l ls IH]; intros acc; simpl.
  - split; [tauto | intros [H | [l [[] _]]]; assumption].
  - rewrite IH, inner_In. split.
    + intros [[H | H] | [l' [H1 H2]]]; eauto 6.
    + intros [H | [l' [[<- | H1] H2]]]; eauto 6.
Qed.

Lemma outer_NoDup ls acc :
  NoDup acc ->
  NoDup (fold_left (fun acc l => fold_left addIfNew (keys (dictOf m l)) acc) ls acc).
Proof.
  revert acc. induction ls as [|l ls IH]; intros acc H; simpl; auto using inner_NoDup.
Qed.

(** A key is canonical exactly when some locale's dictionary has it. *)
Lemma canonicalKeys_In (k : string) :
  In k (canonicalKeys m)
  <-> exists locale, In locale (keys m) /\ In k (keys (dictOf m locale)).
Proof.
  unfold canonicalKeys.
  rewrite outer_In. simpl. tauto.
Qed.

Lemma canonicalKeys_NoDup : NoDup (canonicalKeys m).
Proof.
  unfold canonicalKeys.
  apply outer_NoDup. constructor.
Qed.

(** Whenever [getTranslationKeys] returns, it returns the canonical keys. *)
Lemma getTranslationKeys_Ok (translationKeys : list string) :
  getTranslationKeys m = Ok translationKeys -> translationKeys = canonicalKeys m.
Proof.
  unfold getTranslationKeys, canonicalKeys.
  apply (@forEachKeysM_pure _
           (fun acc l => forEachKeysM (keys (dictOf m l)) pushNew acc)
           (fun acc l => fold_left addIfNew (keys (dictOf m l)) acc)).
  intros acc l r. apply (@forEachKeysM_pure _ pushNew addIfNew).
  intros acc' k r'. rewrite pushNew_spec.
  destruct (includes acc' "hasOwnProperty"); [discriminate | now intros [= <-]].
Qed.

(** The only exception it throws is the [TypeError] of array-contains. *)
Lemma getTranslationKeys_error (e : error) :
  getTranslationKeys m = Throw e -> e = TypeError.
Proof.
  unfold getTranslationKeys.
  apply (@forEachKeysM_error _
           (fun acc l => forEachKeysM (keys (dictOf m l)) pushNew acc)
           (fun e => e = TypeError)).
  intros acc l e'.
  apply (@forEachKeysM_error _ pushNew (fun e => e = TypeError)).
  intros acc' k e''. rewrite pushNew_spec.
  destruct (includes acc' "hasOwnProperty"); [now intros [= <-] | discriminate].
Qed.

Lemma getTranslationKeys_In (translationKeys : list string) (k : string) :
  getTranslationKeys m = Ok translationKeys ->
  (In k translationKeys
   <-> exists locale, In locale (keys m) /\ In k (keys (dictOf m locale))).
Proof.
  intros H. apply getTranslationKeys_Ok in H. subst. apply canonicalKeys_In.
Qed.

Lemma getTranslationKeys_NoDup (translationKeys : list string) :
  getTranslationKeys m = Ok translationKeys -> NoDup translationKeys.
Proof.
  intros H. apply getTranslationKeys_Ok in H. subst. apply canonicalKeys_NoDup.
Qed.

(** It returns when no locale has a key named [hasOwnProperty]. *)
Lemma getTranslationKeys_returns :
  (forall locale k, In locale (keys m) -> In k (keys (dictOf m locale)) ->
                    k <> "hasOwnProperty") ->
  getTranslationKeys m = Ok (canonicalKeys m).
Proof.
  intros Hplain. unfold getTranslationKeys, canonicalKeys.
  assert (Hinner : forall ks acc,
             ~ In "hasOwnProperty" acc -> (forall k, In k ks -> k <> "hasOwnProperty") ->
             forEachKeysM ks pushNew acc = Ok (fold_left addIfNew ks acc)
             /\ ~ In "hasOwnProperty" (fold_left addIfNew ks acc)).
  { induction ks as [|k ks IH]; intros acc Hacc Hks; simpl; [auto|].
    rewrite pushNew_spec.
    apply includes_false in Hacc as Hacc'. rewrite Hacc'. simpl.
    apply IH; [|intros; apply Hks; now right].
    rewrite addIfNew_In. intros [H | H]; [contradiction|].
    symmetry in H. revert H. apply Hks. now left. }
  assert (Houter : forall ls acc,
             ~ In "hasOwnProperty" acc -> (forall l, In l ls -> In l (keys m)) ->
             forEachKeysM ls
               (fun acc l => forEachKeysM (keys (dictOf m l)) pushNew acc) acc
             = Ok (fold_left (fun acc l => fold_left addIfNew (keys (dictOf m l)) acc)
                     ls acc)).
  { induction ls as [|l ls IH]; intros acc Hacc Hls; simpl; [reflexivity|].
    destruct (Hinner (keys (dictOf m l)) acc Hacc) as [-> Hnext].
    { intros k Hk. apply (Hplain l); [apply Hls; now left | assumption]. }
    simpl. apply IH; [assumption | intros; apply Hls; now right]. }
  apply Houter; [intros [] | auto].
Qed.

End CanonicalKeys.
(** ** Inserted and deleted keys *)

Lemma bind_Ok {A B} (r : result A) (f : A -> result B) (b : B) :
  bind r f = Ok b -> exists a, r = Ok a /\ f a = Ok b.
Proof.
  destruct r as [a|e]; simpl; [eauto | discriminate].
Qed.

(** Whenever one of the two functions returns, both key arrays were computed,
    and the result is the filtered difference. *)
Lemma getInsertedTranslationKeys_Ok (old new : TranslationMap) (inserted : list string) :
  getInsertedTranslationKeys old new = Ok inserted ->
  getTranslationKeys old = Ok (canonicalKeys old)
  /\ getTranslationKeys new = Ok (canonicalKeys new)
  /\ inserted
     = filter (fun k => negb (includes (canonicalKeys old) k)
                        && includes (canonicalKeys new) k)
         (arrayDiff (canonicalKeys old) (canonicalKeys new)).
Proof.
  unfold getInsertedTranslationKeys. intros H.
  apply bind_Ok in H as [oldKeys [Hold H]].
  apply bind_Ok in H as [newKeys [Hnew H]].
  pose proof (getTranslationKeys_Ok _ Hold) as ->.
  pose proof (getTranslationKeys_Ok _ Hnew) as ->.
  injection H as <-. auto.
Qed.

Lemma getDeletedTranslationKeys_Ok (old new : TranslationMap) (deleted : list string) :
  getDeletedTranslationKeys old new = Ok deleted ->
  getTranslationKeys old = Ok (canonicalKeys old)
  /\ getTranslationKeys new = Ok (canonicalKeys new)
  /\ deleted
     = filter (fun k => includes (canonicalKeys old) k
                        && negb (includes (canonicalKeys new) k))
         (arrayDiff (canonicalKeys old) (canonicalKeys new)).
Proof.
  unfold getDeletedTranslationKeys. intros H.
  apply bind_Ok in H as [oldKeys [Hold H]].
  apply bind_Ok in H as [newKeys [Hnew H]].
  pose proof (getTranslationKeys_Ok _ Hold) as ->.
  pose proof (getTranslationKeys_Ok _ Hnew) as ->.
  injection H as <-. auto.
Qed.

(** They return as soon as both key arrays can be computed. *)
Lemma getInsertedTranslationKeys_returns (old new : TranslationMap)
  (oldKeys newKeys : list string) :
  getTranslationKeys old = Ok oldKeys -> getTranslationKeys new = Ok newKeys ->
  getInsertedTranslationKeys old new
  = Ok (filter (fun k => negb (includes oldKeys k) && includes newKeys k)
          (arrayDiff oldKeys newKeys)).
Proof.
  unfold getInsertedTranslationKeys. now intros -> ->.
Qed.

Lemma getDeletedTranslationKeys_returns (old new : TranslationMap)
  (oldKeys newKeys : list string) :
  getTranslationKeys old = Ok oldKeys -> getTranslationKeys new = Ok newKeys ->
  getDeletedTranslationKeys old new
  = Ok (filter (fun k => includes oldKeys k && negb (includes newKeys k))
          (arrayDiff oldKeys newKeys)).
Proof.
  unfold getDeletedTranslationKeys. now intros -> ->.
Qed.

Lemma getInsertedTranslationKeys_In (old new : TranslationMap) (inserted : list string)
  (k : string) :
  getInsertedTranslationKeys old new = Ok inserted ->
  (In k inserted <-> ~ In k (canonicalKeys old) /\ In k (canonicalKeys new)).
Proof.
  intros H. apply getInsertedTranslationKeys_Ok in H as [_ [_ ->]].
  rewrite filter_In, arrayDiff_In, andb_true_iff, negb_true_iff, includes_false, includes_In.
  tauto.
Qed.

Lemma getDeletedTranslationKeys_In (old new : TranslationMap) (deleted : list string)
  (k : string) :
  getDeletedTranslationKeys old new = Ok deleted ->
  (In k deleted <-> In k (canonicalKeys old) /\ ~ In k (canonicalKeys new)).
Proof.
  intros H. apply getDeletedTranslationKeys_Ok in H as [_ [_ ->]].
  rewrite filter_In, arrayDiff_In, andb_true_iff, negb_true_iff, includes_false, includes_In.
  tauto.
Qed.

Lemma arrayDiff_NoDup (a b : list string) :
  NoDup a -> NoDup b -> NoDup (arrayDiff a b).
Proof.
  intros Ha Hb. unfold arrayDiff. apply NoDup_app; auto using NoDup_filter.
  intros x Hx Hy. apply filter_In in Hx as [Hx _].
  apply filter_In in Hy as [_ Hy]. apply negb_true_iff, includes_false in Hy.
  contradiction.
Qed.

(** Neither the inserted nor the deleted array lists a key twice. *)
Lemma getInsertedTranslationKeys_NoDup (old new : TranslationMap) (inserted : list string) :
  getInsertedTranslationKeys old new = Ok inserted -> NoDup inserted.
Proof.
  intros H. apply getInsertedTranslationKeys_Ok in H as [_ [_ ->]].
  auto using NoDup_filter, arrayDiff_NoDup, canonicalKeys_NoDup.
Qed.

Lemma getDeletedTranslationKeys_NoDup (old new : TranslationMap) (deleted : list string) :
  getDeletedTranslationKeys old new = Ok deleted -> NoDup deleted.
Proof.
  intros H. apply getDeletedTranslationKeys_Ok in H as [_ [_ ->]].
  auto using NoDup_filter, arrayDiff_NoDup, canonicalKeys_NoDup.
Qed.

Lemma filter_nil_all {A} (f : A -> bool) (l : list A) :
  (forall x, In x l -> f x = false) -> filter f l = [].
Proof.
  induction l as [|a l IH]; simpl; intros H; [reflexivity|].
  rewrite (H a) by auto. apply IH. auto.
Qed.

(** ** Loops that push the keys passing a test *)

Section PushLoops.

Variable inner : string -> list string.
Variable test : string -> string -> result bool.

Lemma push_loop (l : string) (ks acc r : list string) :
  forEachKeysM ks
    (fun acc k => b <- test l k ;; if b then Ok (acc ++ [k]) else Ok acc) acc = Ok r ->
  exists added,
    r = acc ++ added /\ forall x, In x added <-> In x ks /\ test l x = Ok true.
Proof.
  revert acc. induction ks as [|k ks IH]; intros acc; simpl.
  - intros [= <-]. exists []. rewrite app_nil_r. split; [reflexivity|].
    simpl. tauto.
  - destruct (test l k) as [[|]|e] eqn:E; simpl; try discriminate; intros H.
    + apply IH in H as [added [-> Hadded]].
      exists (k :: added). rewrite <- app_assoc. split; [reflexivity|].
      intros x. simpl. rewrite Hadded. intuition (subst; auto).
    + apply IH in H as [added [-> Hadded]].
      exists added. split; [reflexivity|].
      intros x. rewrite Hadded. intuition (subst; congruence).
Qed.

Lemma push_loops (ls : list string) (acc r : list string) :
  forEachKeysM ls
    (fun acc l =>
       forEachKeysM (inner l)
         (fun acc k => b <- test l k ;; if b then Ok (acc ++ [k]) else Ok acc) acc)
    acc = Ok r ->
  exists added,
    r = acc ++ added
    /\ forall x, In x added <-> exists l, In l ls /\ In x (inner l) /\ test l x = Ok true.
Proof.
  revert acc. induction ls as [|l ls IH]; intros acc; simpl.
  - intros [= <-]. exists []. rewrite app_nil_r. split; [reflexivity|].
    simpl. split; [tauto | intros [l [[] _]]].
  - destruct (forEachKeysM (inner l) _ acc) as [acc'|e] eqn:E; simpl; try discriminate.
    intros H.
    apply push_loop in E as [added1 [-> H1]].
    apply IH in H as [added2 [-> H2]].
    exists (added1 ++ added2). rewrite <- app_assoc. split; [reflexivity|].
    intros x. rewrite in_app_iff, H1, H2. split.
    + intros [[Hin Ht] | [l' [Hl' Hx]]]; eauto 6.
    + intros [l' [[<- | Hl'] Hx]]; [left; tauto | right; eauto].
Qed.

Lemma push_loop_defined (l : string) (ks acc : list string) :
  (forall k, In k ks -> exists b, test l k = Ok b) ->
  exists r,
    forEachKeysM ks
      (fun acc k => b <- test l k ;; if b then Ok (acc ++ [k]) else Ok acc) acc = Ok r.
Proof.
  revert acc. induction ks as [|k ks IH]; intros acc Hdef; simpl; eauto.
  destruct (Hdef k) as [b Hb]; [now left|].
  rewrite Hb. destruct b; simpl; apply IH; intros; apply Hdef; now right.
Qed.

Lemma push_loops_defined (ls acc : list string) :
  (forall l k, In l ls -> In k (inner l) -> exists b, test l k = Ok b) ->
  exists r,
    forEachKeysM ls
      (fun acc l =>
         forEachKeysM (inner l)
           (fun acc k => b <- test l k ;; if b then Ok (acc ++ [k]) else Ok acc) acc)
      acc = Ok r.
Proof.
  revert acc. induction ls as [|l ls IH]; intros acc Hdef; simpl; eauto.
  destruct (@push_loop_defined l (inner l) acc) as [r Hr].
  { intros k Hk. apply Hdef; [now left | assumption]. }
  rewrite Hr. simpl. apply IH. intros l' k Hl' Hk. apply Hdef; [now right | assumption].
Qed.

Lemma push_loop_all_defined (l : string) (ks acc r : list string) (k : string) :
  forEachKeysM ks
    (fun acc k => b <- test l k ;; if b then Ok (acc ++ [k]) else Ok acc) acc = Ok r ->
  In k ks -> exists b, test l k = Ok b.
Proof.
  revert acc.
  induction ks as [|k0 ks IH]; intros acc Hr Hin; simpl in Hr; [contradiction|].
  destruct (test l k0) as [b|e] eqn:E; simpl in Hr; [|discriminate].
  destruct Hin as [<- | Hin]; [eauto|].
  destruct b; eauto.
Qed.

Lemma push_loops_all_defined (ls acc r : list string) (l k : string) :
  forEachKeysM ls
    (fun acc l =>
       forEachKeysM (inner l)
         (fun acc k => b <- test l k ;; if b then Ok (acc ++ [k]) else Ok acc) acc)
    acc = Ok r ->
  In l ls -> In k (inner l) -> exists b, test l k = Ok b.
Proof.
  revert acc.
  induction ls as [|l0 ls IH]; intros acc Hr Hl Hk; simpl in Hr; [contradiction|].
  destruct (forEachKeysM (inner l0) _ acc) as [acc'|e] eqn:E; simpl in Hr; [|discriminate].
  destruct Hl as [<- | Hl]; [|eauto].
  eapply push_loop_all_defined; eauto.
Qed.

End PushLoops.

(** ** Updated keys *)

Lemma truthy_prop_defined (d : LocaleDict) (k : string) :
  truthy (prop d k) = true -> In k (keys d).
Proof.
  unfold prop. destruct (get d k) eqn:E; [eauto using get_Some_keys | discriminate].
Qed.

Lemma isUpdated_true (old new : TranslationMap) (deleted : list string)
  (locale k : string) :
  isUpdated old new deleted locale k = Ok true
  <-> exists dOld dNew,
        get old locale = Some dOld /\ get new locale = Some dNew
        /\ truthy (prop dOld k) = true
        /\ strict_eq (prop dOld k) (prop dNew k) = false
        /\ ~ In "hasOwnProperty" deleted
        /\ ~ In k deleted.
Proof.
  unfold isUpdated, getIn. split.
  - destruct (get old locale) as [dOld|]; simpl; [|discriminate].
    destruct (truthy (prop dOld k)) eqn:Et; [|discriminate].
    destruct (get new locale) as [dNew|]; simpl; [|discriminate].
    destruct (strict_eq (prop dOld k) (prop dNew k)) eqn:Es; simpl; [discriminate|].
    rewrite arrayContains_spec.
    destruct (includes deleted "hasOwnProperty") eqn:Eh; simpl; [discriminate|].
    intros [= Hc]. apply negb_true_iff in Hc.
    apply includes_false in Eh, Hc.
    exists dOld, dNew. auto 7.
  - intros [dOld [dNew [HdO [HdN [Ht [Hs [Hh Hc]]]]]]].
    rewrite HdO. simpl. rewrite Ht, HdN. simpl. rewrite Hs. simpl.
    rewrite arrayContains_spec.
    apply includes_false in Hh, Hc. now rewrite Hh, Hc.
Qed.

(** The test returns when the locale is also a locale of the new map, or the
    old value is falsy, provided the deleted keys do not make array-contains
    throw. *)
Lemma isUpdated_defined (old new : TranslationMap) (deleted : list string)
  (locale k : string) (dOld : LocaleDict) :
  get old locale = Some dOld ->
  (truthy (prop dOld k) = true -> has new locale = true) ->
  ~ In "hasOwnProperty" deleted ->
  exists b, isUpdated old new deleted locale k = Ok b.
Proof.
  unfold isUpdated, getIn, has. intros -> Hnew Hh. simpl.
  destruct (truthy (prop dOld k)); eauto.
  destruct (get new locale); simpl; [|discriminate Hnew; reflexivity].
  destruct (strict_eq _ _); simpl; eauto.
  rewrite arrayContains_spec. apply includes_false in Hh. rewrite Hh. simpl. eauto.
Qed.

Lemma getUpdatedTranslationKeys_Ok (old new : TranslationMap) (updated : list string) :
  getUpdatedTranslationKeys old new = Ok updated ->
  exists deleted,
    getDeletedTranslationKeys old new = Ok deleted
    /\ forEachKeysM (keys old)
         (fun acc l =>
            forEachKeysM (keys (dictOf old l))
              (fun acc k =>
                 b <- isUpdated old new deleted l k ;;
                 if b then Ok (acc ++ [k]) else Ok acc) acc) [] = Ok updated.
Proof.
  unfold getUpdatedTranslationKeys. apply bind_Ok.
Qed.

(** When the computation returns, it lists exactly the keys that the
    definition of Updated describes. *)
Lemma getUpdatedTranslationKeys_In (old new : TranslationMap) (updated : list string)
  (k : string) :
  getUpdatedTranslationKeys old new = Ok updated ->
  (In k updated <-> UpdatedSpec old new k).
Proof.
  intros H. apply getUpdatedTranslationKeys_Ok in H as [deleted [Hdel H]].
  pose proof (getDeletedTranslationKeys_Ok _ _ Hdel) as [Hold [Hnew _]].
  pose proof H as Hall.
  apply (push_loops (fun l => keys (dictOf old l)) (isUpdated old new deleted)) in H
    as [added [-> Hadded]].
  simpl. rewrite Hadded. unfold UpdatedSpec, changedInSomeLocale, Deleted, Canonical.
  split.
  - intros [l [Hl [Hk Ht]]].
    apply isUpdated_true in Ht as [dOld [dNew [HdO [HdN [Ht [Hs [_ Hnot]]]]]]].
    assert (HinOld : In k (canonicalKeys old)).
    { apply canonicalKeys_In. eauto. }
    repeat split.
    + eauto.
    + exists (canonicalKeys new). split; [assumption|].
      destruct (in_dec string_dec k (canonicalKeys new)) as [|Hn]; [assumption|].
      exfalso. apply Hnot. apply (getDeletedTranslationKeys_In _ _ k Hdel). auto.
    + exists l, dOld, dNew. auto.
    + intros [deleted' [Hdel' Hin]]. rewrite Hdel in Hdel'. injection Hdel' as <-.
      contradiction.
  - intros [_ [_ [[l [dOld [dNew [HdO [HdN [Ht Hs]]]]]] Hnot]]].
    assert (Hl : In l (keys old)) by eauto using get_Some_keys.
    assert (Hk : In k (keys (dictOf old l))).
    { unfold dictOf. rewrite HdO. now apply truthy_prop_defined. }
    exists l. repeat split; [assumption | assumption |].
    destruct (@push_loops_all_defined (fun l => keys (dictOf old l))
                (isUpdated old new deleted) _ _ _ l k Hall Hl Hk) as [b Hb].
    rewrite Hb. f_equal.
    unfold isUpdated, getIn in Hb. rewrite HdO in Hb. simpl in Hb.
    rewrite Ht, HdN in Hb. simpl in Hb. rewrite Hs in Hb. simpl in Hb.
    apply bind_Ok in Hb as [c [Hc Hb]]. injection Hb as <-.
    apply arrayContains_Ok in Hc as [-> _].
    apply negb_true_iff, includes_false. intros Hin. apply Hnot. eauto.
Qed.

(** The computation returns when the deleted keys are computed and do not
    hold [hasOwnProperty], and every locale of the previous map that holds a
    truthy value is a locale of the current map. *)
Lemma getUpdatedTranslationKeys_defined (old new : TranslationMap) (deleted : list string) :
  getDeletedTranslationKeys old new = Ok deleted ->
  ~ In "hasOwnProperty" deleted ->
  (forall locale dOld k,
      get old locale = Some dOld -> truthy (prop dOld k) = true ->
      has new locale = true) ->
  exists updated, getUpdatedTranslationKeys old new = Ok updated.
Proof.
  intros Hdel Hh Hloc. unfold getUpdatedTranslationKeys. rewrite Hdel. cbn [bind].
  apply (push_loops_defined (fun l => keys (dictOf old l))).
  intros l k Hl _.
  apply keys_get_Some in Hl as [dOld HdO].
  apply isUpdated_defined with (dOld := dOld); eauto.
Qed.

(** The computation throws as soon as a locale of the previous map that holds
    a truthy value is missing from the current map. *)
Lemma getUpdatedTranslationKeys_throws (old new : TranslationMap) (locale k : string)
  (dOld : LocaleDict) :
  get old locale = Some dOld -> truthy (prop dOld k) = true ->
  get new locale = None ->
  forall updated, getUpdatedTranslationKeys old new <> Ok updated.
Proof.
  intros HdO Ht Hnew updated H.
  apply getUpdatedTranslationKeys_Ok in H as [deleted [_ H]].
  apply (@push_loops_all_defined (fun l => keys (dictOf old l))
           (isUpdated old new deleted) _ _ _ locale k) in H as [b Hb].
  - unfold isUpdated, getIn in Hb. rewrite HdO in Hb. simpl in Hb.
    rewrite Ht, Hnew in Hb. discriminate.
  - eauto using get_Some_keys.
  - unfold dictOf. rewrite HdO. now apply truthy_prop_defined.
Qed.

(** It also throws when the deleted keys hold [hasOwnProperty] and some other
    key changed. *)
Example getUpdatedTranslationKeys_throws_on_deleted_hasOwnProperty :
  getDeletedTranslationKeys [("en", [("a", Str "hi"); ("hasOwnProperty", Str "x")])]
    [("en", [("a", Str "hello")])] = Ok ["hasOwnProperty"]
  /\ getUpdatedTranslationKeys [("en", [("a", Str "hi"); ("hasOwnProperty", Str "x")])]
       [("en", [("a", Str "hello")])] = Throw TypeError.
Proof.
  split; reflexivity.
Qed.
(** ** The diff engine: classification theorems *)

(** C1, at the input previous [{en: {a: "hi"}, de: {a: "hallo"}}], current
    [{en: {a: "hello"}}]: the key [a] is in both canonical key sets, the
    locale [en] is present in both maps with a truthy previous value that
    differs from the current one, and [a] is not deleted, so the definition
    of Updated holds of [a]; yet [getUpdatedTranslationKeys] reads
    [newTranslationMap["de"]["a"]] and throws a [TypeError], so that no key
    is classified as updated. *)
Theorem C1_updated_throws_on_removed_locale :
  UpdatedSpec Sample.withGerman Sample.englishOnly "a"
  /\ getUpdatedTranslationKeys Sample.withGerman Sample.englishOnly = Throw TypeError
  /\ ~ Updated Sample.withGerman Sample.englishOnly "a".
Proof.
  split; [|split].
  - unfold UpdatedSpec, changedInSomeLocale, Deleted, Canonical. repeat split.
    + exists ["a"]. split; [reflexivity | now left].
    + exists ["a"]. split; [reflexivity | now left].
    + exists "en", [("a", Str "hi")], [("a", Str "hello")]. repeat split.
    + intros [deleted [H Hin]]. vm_compute in H. injection H as <-. contradiction.
  - reflexivity.
  - intros [updated [H _]]. discriminate H.
Qed.

(** Scenarios B, C and D. *)
Example scenario_B :
  getInsertedTranslationKeys Sample.hi Sample.hiBye = Ok ["b"]
  /\ getUpdatedTranslationKeys Sample.hi Sample.hiBye = Ok []
  /\ getDeletedTranslationKeys Sample.hi Sample.hiBye = Ok [].
Proof.
  repeat split.
Qed.

Example scenario_C :
  getInsertedTranslationKeys Sample.hi Sample.englishOnly = Ok []
  /\ getUpdatedTranslationKeys Sample.hi Sample.englishOnly = Ok ["a"]
  /\ getDeletedTranslationKeys Sample.hi Sample.englishOnly = Ok [].
Proof.
  repeat split.
Qed.

Example scenario_D :
  getInsertedTranslationKeys Sample.hiZed Sample.hi = Ok []
  /\ getUpdatedTranslationKeys Sample.hiZed Sample.hi = Ok []
  /\ getDeletedTranslationKeys Sample.hiZed Sample.hi = Ok ["z"].
Proof.
  repeat split.
Qed.




(** Diffing a map against itself finds no inserted, updated or deleted key
    and produces no journal, whenever the canonical keys of the map can be
    computed. *)
Lemma self_diff_is_empty (m : TranslationMap) (translationKeys : list string) :
  getTranslationKeys m = Ok translationKeys ->
  getInsertedTranslationKeys m m = Ok []
  /\ getUpdatedTranslationKeys m m = Ok []
  /\ getDeletedTranslationKeys m m = Ok []
  /\ (forall showDeleted, isJournalGenerated [] [] [] showDeleted = false)
  /\ (forall wordCount opts keys,
         exists out, onEnd wordCount opts m keys m = Ok out /\ journal out = None).
Proof.
  intros Hks.
  assert (Hins : getInsertedTranslationKeys m m = Ok []).
  { rewrite (getInsertedTranslationKeys_returns _ _ Hks Hks). f_equal.
    apply filter_nil_all. intros k _.
    destruct (includes translationKeys k); reflexivity. }
  assert (Hdel : getDeletedTranslationKeys m m = Ok []).
  { rewrite (getDeletedTranslationKeys_returns _ _ Hks Hks). f_equal.
    apply filter_nil_all. intros k _.
    destruct (includes translationKeys k); reflexivity. }
  assert (Hupd : getUpdatedTranslationKeys m m = Ok []).
  { destruct (getUpdatedTranslationKeys_defined m m Hdel) as [updated H].
    - intros [].
    - intros locale d k Hd _. unfold has. now rewrite Hd.
    - rewrite H. f_equal.
      destruct updated as [|k updated]; [reflexivity|]. exfalso.
      assert (Hin : In k (k :: updated)) by now left.
      apply (getUpdatedTranslationKeys_In _ _ k H) in Hin
        as [_ [_ [[l [d1 [d2 [H1 [H2 [_ Hs]]]]]] _]]].
      rewrite H1 in H2. injection H2 as <-.
      rewrite strict_eq_refl in Hs. discriminate. }
  repeat split; auto.
  - intros showDeleted. destruct showDeleted; reflexivity.
  - intros wordCount opts keys. unfold onEnd.
    rewrite Hins, Hupd, Hdel. cbn [bind].
    eexists. split; [reflexivity|]. cbn [journal].
    unfold journalIfGenerated, isJournalGenerated.
    destruct (showDeletedInJournal opts); reflexivity.
Qed.

(** Scenario A. *)
Example scenario_A :
  getInsertedTranslationKeys Sample.greetings Sample.greetings = Ok []
  /\ getUpdatedTranslationKeys Sample.greetings Sample.greetings = Ok []
  /\ getDeletedTranslationKeys Sample.greetings Sample.greetings = Ok [].
Proof.
  repeat split.
Qed.

(** ** Column names *)

(** C9: the two column-naming functions return the same name for every
    locale and every override map, so the columns written to the export and
    to the journal are the columns read when the snapshot rows are
    replayed. *)
Theorem C9_column_name_functions_agree (locale : string)
  (names : LocaleColumnNameMap) :
  getLocaleColumnName locale names = getColumnNameFromLocale locale names.
Proof.
  unfold getLocaleColumnName, getColumnNameFromLocale.
  destruct (get names locale) as [c|]; simpl; [destruct (c =? "")|]; reflexivity.
Qed.

Lemma lower_upper_ascii (c : ascii) : lower_ascii (upper_ascii c) = lower_ascii c.
Proof.
  destruct c as [[] [] [] [] [] [] [] []]; reflexivity.
Qed.

Lemma toLowerCase_toUpperCase (s : string) :
  toLowerCase (toUpperCase s) = toLowerCase s.
Proof.
  unfold toLowerCase, toUpperCase.
  induction s as [|c s IH]; simpl; [reflexivity|].
  now rewrite lower_upper_ascii, IH.
Qed.

(** The locale that the inverse lookup finds carries the column name as its
    override. *)
Lemma findLocale_Some (columnName : string) (entries whole : LocaleColumnNameMap)
  (locale : string) :
  findLocale columnName entries whole = Some locale ->
  get whole locale = Some columnName.
Proof.
  induction entries as [|[l c] entries IH]; simpl; [discriminate|].
  destruct (has whole l && _) eqn:E.
  - intros [= <-]. apply andb_true_iff in E as [_ E].
    destruct (get whole l) as [c'|]; [|discriminate].
    apply String.eqb_eq in E. now subst.
  - exact IH.
Qed.

Lemma findLocale_None (columnName : string) (entries whole : LocaleColumnNameMap)
  (locale : string) :
  findLocale columnName entries whole = None ->
  In locale (keys entries) -> get whole locale <> Some columnName.
Proof.
  induction entries as [|[l c] entries IH]; simpl; [tauto|].
  destruct (has whole l && _) eqn:E; [discriminate|].
  intros Hnone [-> | Hin]; [|auto].
  intros Hget. unfold has in E. rewrite Hget in E. simpl in E.
  now rewrite String.eqb_refl in E.
Qed.

Lemma isAscii_upper (s : string) : isAscii s = true -> isAscii (toUpperCase s) = true.
Proof.
  unfold toUpperCase.
  induction s as [|c s IH]; simpl; [reflexivity|].
  rewrite !andb_true_iff. intros [Hc Hs]. split; [|auto].
  unfold upper_ascii.
  destruct ((97 <=? nat_of_ascii c)%nat && (nat_of_ascii c <=? 122)%nat) eqn:E;
    [|assumption].
  apply andb_true_iff in E as [E1 E2].
  apply Nat.leb_le in E1, E2. apply Nat.ltb_lt.
  rewrite nat_ascii_embedding; lia.
Qed.


(** With the override of the README, [{"en": "English", "fr": "French"}],
    the column of the locale [en] is [ENGLISH]; no override is strictly equal
    to it, and the column is read back as the locale [english]. *)
Example readme_override_not_recovered :
  getColumnNameFromLocale "en" Sample.readmeNames = "ENGLISH"
  /\ getLocaleFromColumnName (getColumnNameFromLocale "en" Sample.readmeNames)
       Sample.readmeNames = "english".
Proof.
  split; reflexivity.
Qed.

(** Two locales that share an override are both read back as the first. *)
Example shared_override_not_recovered :
  getLocaleFromColumnName
    (getColumnNameFromLocale "fr" [("en", "LANG"); ("fr", "LANG")])
    [("en", "LANG"); ("fr", "LANG")] = "en".
Proof.
  reflexivity.
Qed.


(** ** The metadata summary *)

(** Whatever the dictionary, the row of a locale carries [keyCount] as it was
    initialised. *)
Lemma writeMetaDataRow_row (wordCount : value -> Z) (writer : Writer)
  (localeKey : string) (m : TranslationMap) :
  exists words,
    writeMetaDataRow wordCount writer localeKey m
    = writer ++ [[("LOCALE", Str localeKey); ("NUMBER_OF_WORDS", Num words);
                  ("NUMBER_OF_KEYS", Num 0)]].
Proof.
  unfold writeMetaDataRow, write. eexists. reflexivity.
Qed.

(** C2, at scenario E, [{fr: {a: "bonjour", b: ""}}]: the dictionary of [fr]
    has two keys, and the row written for [fr] has [NUMBER_OF_KEYS] 0, for
    [keyCount] is never incremented. *)
Theorem C2_number_of_keys_written_as_zero (wordCount : value -> Z) :
  length (keys (dictOf Sample.french "fr")) = 2%nat
  /\ exists row,
       writeMetaDataRow wordCount [] "fr" Sample.french = [row]
       /\ get row "LOCALE" = Some (Str "fr")
       /\ get row "NUMBER_OF_KEYS" = Some (Num 0).
Proof.
  split; [reflexivity|].
  destruct (writeMetaDataRow_row wordCount [] "fr" Sample.french) as [words H].
  rewrite H. eexists. split; [reflexivity|]. split; reflexivity.
Qed.

(** ** The journal *)

Section JournalRows.

Variables (translationMap oldTranslationMap : TranslationMap).
Variables (translationKeyColumnName : string) (names : LocaleColumnNameMap).
Variable showOldValueInJournal : bool.

Local Abbreviation rowOf := (journalRowOf translationMap oldTranslationMap
                     translationKeyColumnName names showOldValueInJournal).

Lemma writeJournalRow_app (writer : Writer) (translationKey : option string)
  (updateType : value) :
  writeJournalRow writer translationKey translationMap oldTranslationMap
    translationKeyColumnName names showOldValueInJournal updateType
  = writer ++ rowOf translationKey updateType.
Proof.
  reflexivity.
Qed.

Lemma rowOf_length (translationKey : option string) (updateType : value) :
  length (rowOf translationKey updateType) = 1%nat.
Proof.
  reflexivity.
Qed.

Lemma writeJournalRows_app (writer : Writer) (translationKeys : list string)
  (updateType : value) :
  writeJournalRows writer translationKeys translationMap oldTranslationMap
    translationKeyColumnName names showOldValueInJournal updateType
  = writer ++ flat_map (fun k => rowOf (Some k) updateType) translationKeys.
Proof.
  unfold writeJournalRows. revert writer.
  induction translationKeys as [|k ks IH]; intros writer; simpl.
  - now rewrite app_nil_r.
  - rewrite IH, writeJournalRow_app, <- app_assoc. reflexivity.
Qed.

(** The journal is a separator row, one row per element of the inserted
    array tagged NEW, one per element of the updated array tagged UPDATE,
    one per element of the deleted array tagged DELETE when deletions are
    shown, and a separator row. *)
Lemma generateJournalFile_rows (inserted updated deleted : list string)
  (showDeletedInJournal : bool) :
  generateJournalFile translationMap oldTranslationMap inserted updated deleted
    translationKeyColumnName names showDeletedInJournal showOldValueInJournal
  = rowOf None Undefined
    ++ flat_map (fun k => rowOf (Some k) UpdateType.INSERT) inserted
    ++ flat_map (fun k => rowOf (Some k) UpdateType.UPDATE) updated
    ++ (if showDeletedInJournal
        then flat_map (fun k => rowOf (Some k) UpdateType.DELETE) deleted
        else [])
    ++ rowOf None Undefined.
Proof.
  unfold generateJournalFile, createWriter.
  destruct showDeletedInJournal;
    rewrite !writeJournalRow_app, !writeJournalRows_app, <- ?app_assoc;
    reflexivity.
Qed.

End JournalRows.

(** C4, at previous [{en: {a: "hi"}, fr: {a: "salut"}}] and current
    [{en: {a: "hello"}, fr: {a: "bonjour"}}]: nothing is inserted or deleted
    and the only changed key is [a], yet [getUpdatedTranslationKeys] pushes
    [a] once per locale, and the journal holds two UPDATE rows for [a]
    between its separator rows. *)
Theorem C4_updated_key_written_twice (wordCount : value -> Z) (stamp : string) :
  getInsertedTranslationKeys Sample.greetings Sample.reworded = Ok []
  /\ getUpdatedTranslationKeys Sample.greetings Sample.reworded = Ok ["a"; "a"]
  /\ getDeletedTranslationKeys Sample.greetings Sample.reworded = Ok []
  /\ exists translationKeys out rows,
       getTranslationKeys Sample.reworded = Ok translationKeys
       /\ onEnd wordCount (defaultOpts stamp) Sample.reworded translationKeys
            Sample.greetings = Ok out
       /\ journal out = Some rows
       /\ map (fun row => (prop row "SYSTEM_KEY", prop row "UPDATE_TYPE")) rows
          = [(Null, Undefined); (Str "a", Str "UPDATE"); (Str "a", Str "UPDATE");
             (Null, Undefined)].
Proof.
  split; [reflexivity|]. split; [reflexivity|]. split; [reflexivity|].
  eexists. eexists. eexists. split; [reflexivity|].
  split; [reflexivity|]. split; reflexivity.
Qed.

(** ** The snapshot reconstructor: the header row *)

Section Headers.

Variable opts : Options.

Local Abbreviation localeOf header :=
  (getLocaleFromColumnName header (localeColumnNames opts)).

(** One header either raises the flag or makes sure its locale has a
    dictionary; dictionaries already there are kept. *)
Lemma headerStep_keeps (m : TranslationMap) (b : bool) (header locale : string)
  (d : LocaleDict) :
  get m locale = Some d -> get (fst (headerStep opts (m, b) header)) locale = Some d.
Proof.
  intros Hget. unfold headerStep.
  destruct (negb (header =? translationKeyColumnName opts)); [|assumption].
  destruct (negb (isCreated m _)) eqn:E; simpl; [|assumption].
  rewrite get_set_other; [assumption|].
  intros <-. apply negb_true_iff in E. unfold isCreated, has in E.
  now rewrite Hget in E.
Qed.

Lemma headers_keep (headers : list string) (m : TranslationMap) (b : bool)
  (locale : string) (d : LocaleDict) :
  get m locale = Some d ->
  get (fst (fold_left (headerStep opts) headers (m, b))) locale = Some d.
Proof.
  revert m b.
  induction headers as [|h headers IH]; intros m b Hget; cbn [fold_left fst]; auto.
  destruct (headerStep opts (m, b) h) as [m1 b1] eqn:E.
  apply IH. change m1 with (fst (m1, b1)). rewrite <- E.
  now apply headerStep_keeps.
Qed.

Lemma headers_flag (headers : list string) (m : TranslationMap) (b : bool) :
  snd (fold_left (headerStep opts) headers (m, b)) = true
  <-> b = true \/ In (translationKeyColumnName opts) headers.
Proof.
  revert m b.
  induction headers as [|h headers IH]; intros m b; cbn [fold_left snd In]; [tauto|].
  destruct (headerStep opts (m, b) h) as [m1 b1] eqn:E. rewrite IH.
  unfold headerStep in E.
  destruct (h =? translationKeyColumnName opts) eqn:Eh; simpl in E.
  - apply String.eqb_eq in Eh. injection E as _ <-. intuition.
  - apply String.eqb_neq in Eh.
    destruct (negb (isCreated m _)); injection E as _ <-; intuition congruence.
Qed.

(** A header other than the key column gives its locale an empty dictionary,
    unless the locale is named like a member that every object inherits. *)
Lemma headers_initialise (headers : list string) (m : TranslationMap) (b : bool)
  (header : string) :
  In header headers -> header <> translationKeyColumnName opts ->
  inherited (localeOf header) = false ->
  get m (localeOf header) = None ->
  get (fst (fold_left (headerStep opts) headers (m, b))) (localeOf header) = Some [].
Proof.
  revert m b. induction headers as [|h headers IH]; intros m b Hin Hne Hown Hnone;
    cbn [fold_left]; [contradiction|].
  destruct (headerStep opts (m, b) h) as [m1 b1] eqn:E.
  destruct (get m1 (localeOf header)) as [d|] eqn:E1.
  - (* the first header already gave the locale its dictionary *)
    assert (d = []) as ->.
    { unfold headerStep in E.
      destruct (negb (h =? translationKeyColumnName opts));
        [|injection E as <- _; congruence].
      destruct (negb (isCreated m _)); injection E as <- _; [|congruence].
      destruct (string_dec (getLocaleFromColumnName h (localeColumnNames opts))
                  (localeOf header)) as [Heq | Hdiff].
      - rewrite Heq, get_set_same in E1. congruence.
      - rewrite get_set_other in E1 by assumption. congruence. }
    now apply headers_keep.
  - destruct Hin as [-> | Hin]; [|now apply IH].
    exfalso. unfold headerStep in E.
    apply String.eqb_neq in Hne. rewrite Hne in E. simpl in E.
    unfold isCreated, has in E. fold (localeOf header) in E.
    rewrite Hnone, Hown in E. simpl in E.
    injection E as <- _. rewrite get_set_same in E1. discriminate.
Qed.

(** A locale named like an inherited member never gets a dictionary. *)
Lemma headers_skip_inherited (headers : list string) (m : TranslationMap) (b : bool)
  (locale : string) :
  inherited locale = true -> get m locale = None ->
  get (fst (fold_left (headerStep opts) headers (m, b))) locale = None.
Proof.
  intros Hinh. revert m b.
  induction headers as [|h headers IH]; intros m b Hnone; cbn [fold_left]; [assumption|].
  destruct (headerStep opts (m, b) h) as [m1 b1] eqn:E.
  apply IH. unfold headerStep in E.
  destruct (negb (h =? translationKeyColumnName opts));
    [|injection E as <- _; assumption].
  destruct (negb (isCreated m _)) eqn:Ec; injection E as <- _; [|assumption].
  rewrite get_set_other; [assumption|].
  intros Heq. apply negb_true_iff in Ec. unfold isCreated in Ec.
  rewrite Heq, Hinh, orb_true_r in Ec. discriminate.
Qed.

(** When no header is the translation-key column, the callback throws. *)
Lemma onHeaders_throws (headers : list string) :
  ~ In (translationKeyColumnName opts) headers ->
  onHeaders opts [] headers = Throw (Error "There is no translation key column defined.").
Proof.
  intros Hno. unfold onHeaders.
  set (r := fold_left (headerStep opts) headers _).
  assert (Hflag : snd r = true
                  <-> false = true \/ In (translationKeyColumnName opts) headers)
    by apply headers_flag.
  clearbody r. destruct r as [m b]. simpl in Hflag.
  destruct b; [|reflexivity].
  exfalso. apply Hno. destruct Hflag as [Hflag _].
  destruct (Hflag eq_refl); [discriminate | assumption].
Qed.

(** When one is, the callback returns a previous map in which the locale of
    every other header has an empty dictionary, except the locales named like
    an inherited member, which have none. *)
Lemma onHeaders_returns (headers : list string) :
  In (translationKeyColumnName opts) headers ->
  exists oldTranslationMap,
    onHeaders opts [] headers = Ok oldTranslationMap
    /\ forall header,
        In header headers -> header <> translationKeyColumnName opts ->
        get oldTranslationMap (localeOf header)
        = if inherited (localeOf header) then None else Some [].
Proof.
  intros Hyes. unfold onHeaders.
  set (r := fold_left (headerStep opts) headers _).
  assert (Hflag : snd r = true) by (apply headers_flag; now right).
  assert (Hinit : forall header,
             In header headers -> header <> translationKeyColumnName opts ->
             get (fst r) (localeOf header)
             = if inherited (localeOf header) then None else Some []).
  { intros header Hin Hne. destruct (inherited (localeOf header)) eqn:E.
    - now apply headers_skip_inherited.
    - apply headers_initialise; auto. }
  clearbody r. destruct r as [m b]. simpl in Hflag, Hinit. subst b. simpl.
  exists m. split; [reflexivity | exact Hinit].
Qed.

End Headers.

(** Without the key column the run aborts, once the current translations
    are loaded. *)
Lemma exportTranslations_throws_without_key_column (opts : Options)
  (wordCount : value -> Z) (getFlattenTranslations : string -> result LocaleDict)
  (readdirSync : string -> list string) (isDirectory : string -> bool)
  (readFileSync : string -> option string)
  (readCsv : string -> option (list string * list Data))
  (translationMap : TranslationMap) (translationKeys headers : list string)
  (rows : list Data) :
  getTranslationMap getFlattenTranslations readdirSync isDirectory readFileSync
    (inputDir opts) (inputFile opts) = Ok translationMap ->
  getTranslationKeys translationMap = Ok translationKeys ->
  readCsv (outputDir opts ++ "/" ++ outputFile opts)%string = Some (headers, rows) ->
  ~ In (translationKeyColumnName opts) headers ->
  exportTranslations wordCount getFlattenTranslations readdirSync isDirectory
    readFileSync readCsv opts
  = Throw (Error "There is no translation key column defined.").
Proof.
  intros Hmap Hkeys Hcsv Hno.
  unfold exportTranslations. rewrite Hmap. cbn [bind]. rewrite Hkeys. cbn [bind].
  rewrite Hcsv, (onHeaders_throws opts headers Hno).
  reflexivity.
Qed.

(** C8, at the header row [SYSTEM_KEY, EN, CONSTRUCTOR] and the default
    options: the key column is there and the callback returns, so the claim
    gives the locales [en] and [constructor] an empty dictionary each.  The
    callback creates a dictionary only when [oldTranslationMap[locale]] is
    falsy; for [constructor] that expression is the function every object
    inherits, so the previous map gets no dictionary for this column, and the
    data rows, which run over the locales of the previous map, never read
    it. *)
Theorem C8_inherited_locale_gets_no_dictionary (stamp : string) :
  getLocaleFromColumnName "CONSTRUCTOR" (localeColumnNames (defaultOpts stamp))
  = "constructor"
  /\ exists oldTranslationMap,
       onHeaders (defaultOpts stamp) [] ["SYSTEM_KEY"; "EN"; "CONSTRUCTOR"]
       = Ok oldTranslationMap
       /\ get oldTranslationMap "en" = Some []
       /\ get oldTranslationMap "constructor" = None
       /\ keys oldTranslationMap = ["en"]
       /\ forall key value,
           onData (defaultOpts stamp) oldTranslationMap
             [("SYSTEM_KEY", key); ("EN", ""); ("CONSTRUCTOR", value)]
           = onData (defaultOpts stamp) oldTranslationMap
               [("SYSTEM_KEY", key); ("EN", "")].
Proof.
  split; [reflexivity|].
  exists [("en", [])]. repeat split.
Qed.
(** ** Columns of the consolidated export and rows of the metadata summary *)

Lemma columns_has (col : string -> string) (val : string -> value)
  (ls : list string) (row : Row) (c : string) :
  has (fold_left (fun row l => set (col l) (val l) row) ls row) c = true
  <-> has row c = true \/ exists l, In l ls /\ col l = c.
Proof.
  revert row. induction ls as [|l ls IH]; intros row; simpl.
  - split; [tauto | intros [H | [l [[] _]]]; assumption].
  - rewrite IH, has_set. split.
    + intros [[H | H] | [l' [H1 H2]]]; eauto 6.
    + intros [H | [l' [[<- | H1] H2]]]; eauto 6.
Qed.

(** Every row of the consolidated export has a column for every locale of
    the translation map. *)
Lemma generateTranslationFile_columns (m : TranslationMap) (translationKeys : list string)
  (keyColumn : string) (names : LocaleColumnNameMap) (locale : string) (row : Row) :
  In locale (keys m) ->
  In row (generateTranslationFile m translationKeys keyColumn names) ->
  has row (getLocaleColumnName locale names) = true.
Proof.
  intros Hlocale.
  set (P := fun row : Row => has row (getLocaleColumnName locale names) = true).
  assert (Hrow : forall w k, Forall P w ->
                   Forall P (writeTranslationRow w k m keyColumn names)).
  { intros w k Hw. unfold writeTranslationRow, write, forEachKeys.
    apply Forall_app. split; [assumption|]. constructor; [|constructor].
    unfold P. apply columns_has. right. eauto. }
  assert (Hrows : forall ks w, Forall P w ->
                    Forall P (fold_left
                                (fun w k => writeTranslationRow w (Some k) m keyColumn names)
                                ks w)).
  { induction ks as [|k ks IH]; intros w Hw; simpl; auto. }
  intros Hin.
  assert (Hall : Forall P (generateTranslationFile m translationKeys keyColumn names)).
  { unfold generateTranslationFile, createWriter. apply Hrow, Hrows, Hrow. constructor. }
  rewrite Forall_forall in Hall. now apply Hall.
Qed.

(** The metadata summary has a row for every locale of the translation map. *)
Lemma generateTranslationMetaFile_rows (wordCount : value -> Z) (m : TranslationMap)
  (locale : string) :
  In locale (keys m) ->
  exists row,
    In row (generateTranslationMetaFile wordCount m)
    /\ get row "LOCALE" = Some (Str locale).
Proof.
  unfold generateTranslationMetaFile, forEachKeys.
  generalize (write createWriter [("LOCALE", Str ""); ("NUMBER_OF_KEYS", Str "");
                                  ("NUMBER_OF_WORDS", Str "")]).
  assert (Hkeep : forall ls w row,
             In row w ->
             In row (fold_left (fun w l => writeMetaDataRow wordCount w l m) ls w)).
  { induction ls as [|l ls IH]; intros w row Hin; simpl; auto.
    apply IH. destruct (writeMetaDataRow_row wordCount w l m) as [words ->].
    apply in_app_iff. now left. }
  induction (keys m) as [|l ls IH]; intros w Hin; simpl; [contradiction|].
  destruct Hin as [-> | Hin]; [|now apply IH].
  destruct (writeMetaDataRow_row wordCount w locale m) as [words Hw].
  eexists. split.
  - apply Hkeep. rewrite Hw. apply in_app_iff. right. left. reflexivity.
  - reflexivity.
Qed.


(** The consolidated export always has rows: it ends with a separator row. *)
Lemma generateTranslationFile_not_empty (m : TranslationMap) (translationKeys : list string)
  (keyColumn : string) (names : LocaleColumnNameMap) :
  generateTranslationFile m translationKeys keyColumn names <> [].
Proof.
  unfold generateTranslationFile, writeTranslationRow at 1, write.
  intros H. apply app_eq_nil in H as [_ H]. discriminate.
Qed.

(** ** The translation loader *)

Section Loader.

Variable getFlattenTranslations : string -> result LocaleDict.
Variable readdirSync : string -> list string.
Variable isDirectory : string -> bool.
Variable readFileSync : string -> option string.
Variables inputDir inputFile : string.

Local Abbreviation path locale := (translationFilePath inputDir locale inputFile).
Local Abbreviation load := (loadLocale getFlattenTranslations readFileSync inputDir inputFile).

Lemma load_missing (locales : list string) (m r : TranslationMap) (locale : string) :
  forEachKeysM locales load m = Ok r ->
  readFileSync (path locale) = None ->
  In locale locales \/ get m locale = Some [] ->
  get r locale = Some [].
Proof.
  intros Hr Hnone. revert m Hr.
  induction locales as [|l locales IH]; intros m Hr Hwhere; simpl in Hr.
  - injection Hr as <-. destruct Hwhere as [[] | H]; assumption.
  - destruct (load m l) as [m1|e] eqn:E; simpl in Hr; [|discriminate].
    apply (IH m1 Hr). unfold loadLocale in E.
    destruct (string_dec l locale) as [-> | Hne].
    + right. rewrite Hnone in E. injection E as <-. apply get_set_same.
    + destruct Hwhere as [[Heq | Hin] | Hget]; [contradiction | now left | right].
      destruct (readFileSync (path l)) as [data|].
      * destruct (getFlattenTranslations data) as [flat|]; simpl in E; [|discriminate].
        injection E as <-. now rewrite get_set_other.
      * injection E as <-. now rewrite get_set_other.
Qed.

Lemma load_defined (locales : list string) (m : TranslationMap) :
  (forall locale data,
      In locale locales -> readFileSync (path locale) = Some data ->
      exists flat, getFlattenTranslations data = Ok flat) ->
  exists r, forEachKeysM locales load m = Ok r.
Proof.
  revert m. induction locales as [|l locales IH]; intros m Hparse; simpl; eauto.
  assert (Hl : exists m1, load m l = Ok m1).
  { unfold loadLocale. destruct (readFileSync (path l)) as [data|] eqn:E; eauto.
    destruct (Hparse l data) as [flat Hflat]; [now left | assumption |].
    rewrite Hflat. simpl. eauto. }
  destruct Hl as [m1 ->]. simpl. apply IH.
  intros locale data Hin. apply Hparse. now right.
Qed.

Lemma load_error (locales : list string) (m : TranslationMap) (e : error) :
  forEachKeysM locales load m = Throw e ->
  exists locale data,
    In locale locales /\ readFileSync (path locale) = Some data
    /\ getFlattenTranslations data = Throw e.
Proof.
  revert m. induction locales as [|l locales IH]; intros m; simpl; [discriminate|].
  destruct (load m l) as [m1|e1] eqn:E; simpl.
  - intros H. apply IH in H as [locale [data [Hin H]]]. exists locale, data. auto.
  - intros [= <-]. unfold loadLocale in E.
    destruct (readFileSync (path l)) as [data|] eqn:Ef; [|discriminate].
    destruct (getFlattenTranslations data) as [flat|e2] eqn:Ep; simpl in E;
      [discriminate|].
    injection E as <-. exists l, data. auto.
Qed.


End Loader.

(** * Further properties of the exporter *)

(** ** Arrays of keys *)

Lemma filter_all {A} (f : A -> bool) (l : list A) :
  (forall x, In x l -> f x = true) -> filter f l = l.
Proof.
  induction l as [|a l IH]; simpl; intros H; [reflexivity|].
  rewrite (H a) by auto. f_equal. apply IH. auto.
Qed.

(** X1: asked for a string other than [__proto__], array-contains throws a
    [TypeError] exactly when the array holds the string [hasOwnProperty]; on
    every other array its hash-object test is membership in the array and
    agrees with [Array.prototype.includes], which the diff functions use on
    the same arrays. *)
Theorem X1_arrayContains_is_membership (arr : list string) (x : string) :
  x <> "__proto__" ->
  (arrayContains arr x = Throw TypeError <-> In "hasOwnProperty" arr)
  /\ (~ In "hasOwnProperty" arr -> arrayContains arr x = Ok (includes arr x))
  /\ (forall b, arrayContains arr x = Ok b -> (b = true <-> In x arr)).
Proof.
  intros _. rewrite arrayContains_spec.
  destruct (includes arr "hasOwnProperty") eqn:E.
  - apply includes_In in E. split; [tauto|]. split; [tauto|]. discriminate.
  - apply includes_false in E. split; [|split].
    + split; [discriminate | tauto].
    + reflexivity.
    + intros b [= <-]. apply includes_In.
Qed.

(** X1 on an ordinary array and on an array that holds [hasOwnProperty]. *)
Lemma X1_arrayContains_is_membership_witness :
  arrayContains ["a"; "b"] "b" = Ok true
  /\ (arrayContains ["hasOwnProperty"; "a"] "b" = Throw TypeError
      <-> In "hasOwnProperty" ["hasOwnProperty"; "a"]).
Proof.
  split.
  - apply (proj1 (proj2 (@X1_arrayContains_is_membership ["a"; "b"] "b"
                           ltac:(discriminate)))).
    simpl. intros [H | [H | []]]; discriminate.
  - apply (proj1 (@X1_arrayContains_is_membership ["hasOwnProperty"; "a"] "b"
                    ltac:(discriminate))).
Defined.

Lemma withoutProto_keys (m : TranslationMap) (locale k : string) :
  withoutProto m = true -> In locale (keys m) -> In k (keys (dictOf m locale)) ->
  k <> "__proto__".
Proof.
  unfold withoutProto. rewrite forallb_forall. intros Hall Hl Hk ->.
  apply keys_get_Some in Hl as [d Hd].
  unfold dictOf in Hk. rewrite Hd in Hk.
  assert (Hin : In (locale, d) m).
  { clear Hall Hk. induction m as [|[l d'] m IH]; simpl in *; [discriminate|].
    destruct (locale =? l) eqn:E.
    - apply String.eqb_eq in E. injection Hd as ->. subst. now left.
    - right. auto. }
  apply Hall in Hin. simpl in Hin.
  apply negb_true_iff, includes_false in Hin. contradiction.
Qed.

(** X2: when no dictionary has a key named [__proto__], the canonical key
    set, once computed, lists exactly the keys that some locale of the map
    defines, each of them once; it is computed when no locale has a key named
    [hasOwnProperty], and the only exception is the [TypeError] of
    array-contains, raised because some locale has that key. *)
Theorem X2_canonical_keys_are_the_defined_keys (m : TranslationMap) :
  withoutProto m = true ->
  (forall translationKeys,
      getTranslationKeys m = Ok translationKeys ->
      (forall k,
          In k translationKeys
          <-> exists locale d v, get m locale = Some d /\ get d k = Some v)
      /\ NoDup translationKeys)
  /\ ((forall locale d, get m locale = Some d -> get d "hasOwnProperty" = None) ->
      exists translationKeys, getTranslationKeys m = Ok translationKeys)
  /\ (forall e,
         getTranslationKeys m = Throw e ->
         e = TypeError
         /\ exists locale d v, get m locale = Some d /\ get d "hasOwnProperty" = Some v).
Proof.
  intros _.
  assert (Hret : (forall locale d, get m locale = Some d -> get d "hasOwnProperty" = None) ->
                 getTranslationKeys m = Ok (canonicalKeys m)).
  { intros Hplain. apply getTranslationKeys_returns.
    intros locale k Hl Hk ->.
    apply keys_get_Some in Hl as [d Hd].
    unfold dictOf in Hk. rewrite Hd in Hk.
    apply keys_get_Some in Hk as [v Hv].
    rewrite (Hplain locale d Hd) in Hv. discriminate. }
  split; [|split].
  - intros translationKeys Hks.
    split; [|now apply (getTranslationKeys_NoDup m)].
    intros k. rewrite (getTranslationKeys_In m k Hks). split.
    + intros [locale [Hl Hk]].
      apply keys_get_Some in Hl as [d Hd].
      unfold dictOf in Hk. rewrite Hd in Hk.
      apply keys_get_Some in Hk as [v Hv]. eauto.
    + intros [locale [d [v [Hd Hv]]]]. exists locale. split.
      * eauto using get_Some_keys.
      * unfold dictOf. rewrite Hd. eauto using get_Some_keys.
  - intros Hplain. rewrite (Hret Hplain). eauto.
  - intros e He. split; [now apply (getTranslationKeys_error m)|].
    assert (Hsome : ~ forall locale d,
                        get m locale = Some d -> get d "hasOwnProperty" = None).
    { intros Hplain. rewrite (Hret Hplain) in He. discriminate. }
    assert (Hdec : forall ls,
               (forall locale d, In locale ls -> get m locale = Some d ->
                                 get d "hasOwnProperty" = None)
               \/ exists locale d v,
                   get m locale = Some d /\ get d "hasOwnProperty" = Some v).
    { induction ls as [|l ls [IH | IH]]; [left; intros ? ? [] | | now right].
      destruct (get m l) as [d|] eqn:Ed.
      - destruct (get d "hasOwnProperty") as [v|] eqn:Ev; [right; eauto|].
        left. intros locale d' [<- | Hin] Hd'; [congruence | eauto].
      - left. intros locale d' [<- | Hin] Hd'; [congruence | eauto]. }
    destruct (Hdec (keys m)) as [Hplain | Hex]; [|exact Hex].
    exfalso. apply Hsome. intros locale d Hd.
    apply (Hplain locale d); eauto using get_Some_keys.
Qed.

(** X2 at scenario A. *)
Lemma X2_canonical_keys_are_the_defined_keys_witness :
  exists translationKeys, getTranslationKeys Sample.greetings = Ok translationKeys.
Proof.
  apply (proj1 (proj2 (@X2_canonical_keys_are_the_defined_keys Sample.greetings
                         eq_refl))).
  intros locale d. unfold Sample.greetings. simpl.
  destruct (locale =? "en"); [intros [= <-]; reflexivity|].
  destruct (locale =? "fr"); [intros [= <-]; reflexivity | discriminate].
Defined.

Lemma get_app_left {V} (o o' : obj V) (k : string) :
  In k (keys o) -> get (o ++ o') k = get o k.
Proof.
  induction o as [|[k' v] o IH]; simpl; [tauto|].
  intros [-> | Hin].
  - now rewrite String.eqb_refl.
  - destruct (k =? k'); auto.
Qed.

Lemma fold_left_ext_in {A B} (f g : A -> B -> A) (l : list B) (a : A) :
  (forall a b, In b l -> f a b = g a b) -> fold_left f l a = fold_left g l a.
Proof.
  revert a. induction l as [|b l IH]; intros a H; simpl; [reflexivity|].
  rewrite H by now left. apply IH. intros; apply H; now right.
Qed.

Lemma forEachKeysM_app {S} (f : S -> string -> result S) (a b : list string) (s : S) :
  forEachKeysM (a ++ b) f s = (s' <- forEachKeysM a f s ;; forEachKeysM b f s').
Proof.
  revert s. induction a as [|k a IH]; intros s; simpl; [reflexivity|].
  destruct (f s k) as [s1|e]; simpl; [apply IH | reflexivity].
Qed.

Lemma forEachKeysM_ext_in {S} (f g : S -> string -> result S) (l : list string) (s : S) :
  (forall s k, In k l -> f s k = g s k) -> forEachKeysM l f s = forEachKeysM l g s.
Proof.
  revert s. induction l as [|k l IH]; intros s H; simpl; [reflexivity|].
  rewrite H by now left. destruct (g s k); simpl; [|reflexivity].
  apply IH. intros; apply H; now right.
Qed.

Lemma addIfNew_extends (ks acc : list string) :
  exists rest, fold_left addIfNew ks acc = acc ++ rest.
Proof.
  revert acc. induction ks as [|k ks IH]; intros acc; simpl.
  - exists []. now rewrite app_nil_r.
  - destruct (IH (addIfNew acc k)) as [rest ->]. unfold addIfNew.
    destruct (includes acc k).
    + now exists rest.
    + exists (k :: rest). now rewrite <- app_assoc.
Qed.

Lemma canonical_extends (m : TranslationMap) (ls acc : list string) :
  exists rest,
    fold_left (fun acc l => fold_left addIfNew (keys (dictOf m l)) acc) ls acc
    = acc ++ rest.
Proof.
  revert acc. induction ls as [|l ls IH]; intros acc; simpl.
  - exists []. now rewrite app_nil_r.
  - destruct (addIfNew_extends (keys (dictOf m l)) acc) as [r1 ->].
    destruct (IH (acc ++ r1)) as [r2 ->].
    exists (r1 ++ r2). now rewrite app_assoc.
Qed.

(** X3: first-seen order: when locales are added after the existing ones
    (new names that are not array indices, so that they are enumerated last)
    and the canonical key set of the larger map is computed, the canonical
    key set of the smaller map is computed as well, and the new locales only
    append keys to it: they never reorder or remove the keys already
    listed. *)
Theorem X3_canonical_keys_grow_at_the_end (m more : TranslationMap)
  (allKeys : list string) :
  (forall locale, In locale (keys more) ->
                  allDigits locale = false /\ ~ In locale (keys m)) ->
  withoutProto (m ++ more) = true ->
  getTranslationKeys (m ++ more) = Ok allKeys ->
  exists translationKeys added,
    getTranslationKeys m = Ok translationKeys
    /\ allKeys = translationKeys ++ added
    /\ forall k, In k added -> ~ In k translationKeys.
Proof.
  intros _ _ Hall.
  pose proof (getTranslationKeys_NoDup (m ++ more) Hall) as Hnd.
  unfold getTranslationKeys in Hall. unfold keys at 1 in Hall.
  rewrite map_app in Hall. fold (keys m) in Hall. fold (keys more) in Hall.
  rewrite forEachKeysM_app in Hall.
  apply bind_Ok in Hall as [translationKeys [Hm Hmore]].
  rewrite (forEachKeysM_ext_in
             (fun acc l => forEachKeysM (keys (dictOf (m ++ more) l)) pushNew acc)
             (fun acc l => forEachKeysM (keys (dictOf m l)) pushNew acc)) in Hm.
  2:{ intros acc l Hl. unfold dictOf. now rewrite get_app_left. }
  apply (@forEachKeysM_pure _
           (fun acc l => forEachKeysM (keys (dictOf (m ++ more) l)) pushNew acc)
           (fun acc l => fold_left addIfNew (keys (dictOf (m ++ more) l)) acc)) in Hmore.
  2:{ intros acc l r. apply (@forEachKeysM_pure _ pushNew addIfNew).
      intros acc' k r'. rewrite pushNew_spec.
      destruct (includes acc' "hasOwnProperty"); [discriminate | now intros [= <-]]. }
  destruct (canonical_extends (m ++ more) (keys more) translationKeys) as [added Hadd].
  rewrite Hadd in Hmore. subst allKeys.
  exists translationKeys, added. split; [exact Hm|]. split; [reflexivity|].
  intros k Hadded Hold. clear Hm Hadd.
  induction translationKeys as [|a l IH]; simpl in *; [tauto|].
  destruct Hold as [<- | Hin].
  - inversion Hnd as [|? ? Hnot _]. apply Hnot. apply in_app_iff. now right.
  - inversion Hnd. auto.
Qed.

(** X3 when the locale [fr] is added to [{en: {a: "hi"}}]. *)
Lemma X3_canonical_keys_grow_at_the_end_witness :
  exists translationKeys added,
    getTranslationKeys Sample.hi = Ok translationKeys
    /\ ["a"; "c"] = translationKeys ++ added
    /\ forall k, In k added -> ~ In k translationKeys.
Proof.
  apply (@X3_canonical_keys_grow_at_the_end Sample.hi
           [("fr", [("a", Str "salut"); ("c", Str "x")])] ["a"; "c"]).
  - simpl. intros locale [<- | []]. split; [reflexivity|].
    intros [H | []]. discriminate.
  - reflexivity.
  - reflexivity.
Defined.

Lemma inserted_filter (oldKeys newKeys : list string) :
  filter (fun k => negb (includes oldKeys k) && includes newKeys k)
    (arrayDiff oldKeys newKeys)
  = filter (fun k => negb (includes oldKeys k)) newKeys.
Proof.
  unfold arrayDiff. rewrite filter_app.
  set (P := fun k => negb (includes oldKeys k) && includes newKeys k).
  assert (H1 : filter P (filter (fun x => negb (includes newKeys x)) oldKeys) = []).
  { apply filter_nil_all. intros k Hk. apply filter_In in Hk as [Hin Hnot].
    apply includes_In in Hin. unfold P. now rewrite Hin. }
  assert (H2 : filter P (filter (fun x => negb (includes oldKeys x)) newKeys)
               = filter (fun x => negb (includes oldKeys x)) newKeys).
  { apply filter_all. intros k Hk. apply filter_In in Hk as [Hin Hnot].
    apply includes_In in Hin. unfold P. now rewrite Hnot, Hin. }
  now rewrite H1, H2.
Qed.

Lemma deleted_filter (oldKeys newKeys : list string) :
  filter (fun k => includes oldKeys k && negb (includes newKeys k))
    (arrayDiff oldKeys newKeys)
  = filter (fun k => negb (includes newKeys k)) oldKeys.
Proof.
  unfold arrayDiff. rewrite filter_app.
  set (P := fun k => includes oldKeys k && negb (includes newKeys k)).
  assert (H1 : filter P (filter (fun x => negb (includes newKeys x)) oldKeys)
               = filter (fun x => negb (includes newKeys x)) oldKeys).
  { apply filter_all. intros k Hk. apply filter_In in Hk as [Hin Hnot].
    apply includes_In in Hin. unfold P. now rewrite Hin, Hnot. }
  assert (H2 : filter P (filter (fun x => negb (includes oldKeys x)) newKeys) = []).
  { apply filter_nil_all. intros k Hk. apply filter_In in Hk as [Hin Hnot].
    apply includes_In in Hin. unfold P. now rewrite Hin, andb_false_r. }
  rewrite H1, H2. apply app_nil_r.
Qed.

Lemma inserted_as_filter (old new : TranslationMap) :
  getInsertedTranslationKeys old new
  = (oldTranslationKeys <- getTranslationKeys old ;;
     newTranslationKeys <- getTranslationKeys new ;;
     Ok (filter (fun k => negb (includes oldTranslationKeys k)) newTranslationKeys)).
Proof.
  unfold getInsertedTranslationKeys.
  destruct (getTranslationKeys old) as [oldKeys|]; simpl; [|reflexivity].
  destruct (getTranslationKeys new) as [newKeys|]; simpl; [|reflexivity].
  now rewrite inserted_filter.
Qed.

Lemma deleted_as_filter (old new : TranslationMap) :
  getDeletedTranslationKeys old new
  = (oldTranslationKeys <- getTranslationKeys old ;;
     newTranslationKeys <- getTranslationKeys new ;;
     Ok (filter (fun k => negb (includes newTranslationKeys k)) oldTranslationKeys)).
Proof.
  unfold getDeletedTranslationKeys.
  destruct (getTranslationKeys old) as [oldKeys|]; simpl; [|reflexivity].
  destruct (getTranslationKeys new) as [newKeys|]; simpl; [|reflexivity].
  now rewrite deleted_filter.
Qed.

(** X4: the inserted keys are the current canonical keys that the previous
    snapshot lacks, in their canonical order; the deleted keys are the
    previous canonical keys that the current map lacks, in theirs; both
    computations throw when one of the two canonical key sets does. *)
Theorem X4_inserted_and_deleted_follow_canonical_order (old new : TranslationMap) :
  getInsertedTranslationKeys old new
  = (oldTranslationKeys <- getTranslationKeys old ;;
     newTranslationKeys <- getTranslationKeys new ;;
     Ok (filter (fun k => negb (includes oldTranslationKeys k)) newTranslationKeys))
  /\ getDeletedTranslationKeys old new
     = (oldTranslationKeys <- getTranslationKeys old ;;
        newTranslationKeys <- getTranslationKeys new ;;
        Ok (filter (fun k => negb (includes newTranslationKeys k)) oldTranslationKeys)).
Proof.
  split; [apply inserted_as_filter | apply deleted_as_filter].
Qed.

(** X5: swapping the two snapshots swaps insertion and deletion: the keys
    inserted from [old] to [new] are, in the same order, the keys deleted
    from [new] to [old], and one computation throws when the other does. *)
Theorem X5_inserted_is_deleted_backwards (old new : TranslationMap) :
  getInsertedTranslationKeys old new = getDeletedTranslationKeys new old.
Proof.
  rewrite inserted_as_filter.
  rewrite deleted_as_filter.
  destruct (getTranslationKeys old) as [oldKeys|e1] eqn:Eold;
    destruct (getTranslationKeys new) as [newKeys|e2] eqn:Enew; simpl;
    try reflexivity.
  apply getTranslationKeys_error in Eold, Enew. congruence.
Qed.

(** X6: against an empty previous snapshot every canonical key of the
    current map is inserted, in canonical order, and nothing is updated or
    deleted; the three computations throw when the canonical key set of the
    current map does. *)
Theorem X6_empty_previous_snapshot (new : TranslationMap) :
  withoutProto new = true ->
  getInsertedTranslationKeys [] new = getTranslationKeys new
  /\ getUpdatedTranslationKeys [] new
     = (translationKeys <- getTranslationKeys new ;; Ok [])
  /\ getDeletedTranslationKeys [] new
     = (translationKeys <- getTranslationKeys new ;; Ok []).
Proof.
  intros _.
  assert (Hdel : getDeletedTranslationKeys [] new
                 = (translationKeys <- getTranslationKeys new ;; Ok [])).
  { rewrite deleted_as_filter. reflexivity. }
  split; [|split].
  - rewrite inserted_as_filter. cbn [getTranslationKeys keys map forEachKeysM bind].
    destruct (getTranslationKeys new) as [newKeys|]; simpl; [|reflexivity].
    f_equal. now apply filter_all.
  - unfold getUpdatedTranslationKeys. rewrite Hdel.
    destruct (getTranslationKeys new); reflexivity.
  - exact Hdel.
Qed.

(** X6 at scenario A read as a first export. *)
Lemma X6_empty_previous_snapshot_witness :
  getInsertedTranslationKeys [] Sample.greetings = getTranslationKeys Sample.greetings
  /\ getUpdatedTranslationKeys [] Sample.greetings
     = (translationKeys <- getTranslationKeys Sample.greetings ;; Ok [])
  /\ getDeletedTranslationKeys [] Sample.greetings
     = (translationKeys <- getTranslationKeys Sample.greetings ;; Ok []).
Proof.
  apply (@X6_empty_previous_snapshot Sample.greetings).
  reflexivity.
Defined.

(** X7: when no locale of the previous map is named like an inherited
    member, [getUpdatedTranslationKeys] returns exactly when the deleted keys
    are computed, every locale of the previous map that holds a truthy value
    is a locale of the current map, and no value changed while the deleted
    keys hold [hasOwnProperty]; otherwise it throws. *)
Theorem X7_updated_returns_iff_locales_remain (old new : TranslationMap) :
  (forall locale, In locale (keys old) -> inherited locale = false) ->
  (exists updated, getUpdatedTranslationKeys old new = Ok updated)
  <-> (exists deleted,
          getDeletedTranslationKeys old new = Ok deleted
          /\ forall locale d k,
              get old locale = Some d -> truthy (prop d k) = true ->
              exists d',
                get new locale = Some d'
                /\ (strict_eq (prop d k) (prop d' k) = false ->
                    ~ In "hasOwnProperty" deleted)).
Proof.
  intros _. split.
  - intros [updated Hu].
    apply getUpdatedTranslationKeys_Ok in Hu as [deleted [Hdel Hu]].
    exists deleted. split; [exact Hdel|].
    intros locale d k Hd Ht.
    assert (Hl : In locale (keys old)) by eauto using get_Some_keys.
    assert (Hk : In k (keys (dictOf old locale))).
    { unfold dictOf. rewrite Hd. now apply truthy_prop_defined. }
    destruct (@push_loops_all_defined (fun l => keys (dictOf old l))
                (isUpdated old new deleted) _ _ _ locale k Hu Hl Hk) as [b Hb].
    unfold isUpdated, getIn in Hb. rewrite Hd in Hb. simpl in Hb.
    rewrite Ht in Hb.
    destruct (get new locale) as [d'|]; simpl in Hb; [|discriminate].
    exists d'. split; [reflexivity|]. intros Hs. rewrite Hs in Hb. simpl in Hb.
    apply bind_Ok in Hb as [c [Hc _]].
    apply arrayContains_Ok in Hc as [_ Hc]. now apply includes_false.
  - intros [deleted [Hdel Hall]].
    unfold getUpdatedTranslationKeys. rewrite Hdel. cbn [bind].
    apply (push_loops_defined (fun l => keys (dictOf old l))).
    intros l k Hl _.
    apply keys_get_Some in Hl as [d Hd].
    unfold isUpdated, getIn. rewrite Hd. simpl.
    destruct (truthy (prop d k)) eqn:Et; [|eauto].
    destruct (Hall l d k Hd Et) as [d' [-> Hown]]. simpl.
    destruct (strict_eq (prop d k) (prop d' k)); simpl; [eauto|].
    rewrite arrayContains_spec.
    specialize (Hown eq_refl). apply includes_false in Hown. rewrite Hown.
    simpl. eauto.
Qed.

(** X7 at scenario C: the only locale of the previous map is a locale of
    the current map, and the computation returns. *)
Lemma X7_updated_returns_iff_locales_remain_witness :
  exists updated, getUpdatedTranslationKeys Sample.hi Sample.englishOnly = Ok updated.
Proof.
  apply (proj2 (@X7_updated_returns_iff_locales_remain Sample.hi Sample.englishOnly
                  ltac:(simpl; intros locale [<- | []]; reflexivity))).
  exists []. split; [reflexivity|].
  intros locale d k. unfold Sample.hi, Sample.englishOnly. simpl.
  destruct (locale =? "en"); [|discriminate].
  intros _ _. exists [("a", Str "hello")]. split; [reflexivity|]. intros _ [].
Defined.

(** The keys of one locale that the inner loop pushes. *)
Lemma push_loop_filter (test : string -> string -> result bool)
  (decide : string -> string -> bool) (l : string) (ks acc r : list string) :
  (forall k b, test l k = Ok b -> b = decide l k) ->
  forEachKeysM ks
    (fun acc k => b <- test l k ;; if b then Ok (acc ++ [k]) else Ok acc) acc = Ok r ->
  r = acc ++ filter (decide l) ks.
Proof.
  intros Hdec. revert acc. induction ks as [|k ks IH]; intros acc; simpl.
  - intros [= <-]. now rewrite app_nil_r.
  - destruct (test l k) as [b|e] eqn:E; simpl; [|discriminate].
    apply Hdec in E. subst b. destruct (decide l k); intros H; apply IH in H.
    + now rewrite H, <- app_assoc.
    + exact H.
Qed.

Lemma push_loops_filter (inner : string -> list string)
  (test : string -> string -> result bool) (decide : string -> string -> bool)
  (ls acc r : list string) :
  (forall l k b, test l k = Ok b -> b = decide l k) ->
  forEachKeysM ls
    (fun acc l =>
       forEachKeysM (inner l)
         (fun acc k => b <- test l k ;; if b then Ok (acc ++ [k]) else Ok acc) acc)
    acc = Ok r ->
  r = acc ++ flat_map (fun l => filter (decide l) (inner l)) ls.
Proof.
  intros Hdec. revert acc. induction ls as [|l ls IH]; intros acc; simpl.
  - intros [= <-]. now rewrite app_nil_r.
  - destruct (forEachKeysM (inner l) _ acc) as [acc'|e] eqn:E; simpl; [|discriminate].
    apply (push_loop_filter test decide l (inner l) acc (Hdec l)) in E. subst acc'.
    intros H. apply IH in H. now rewrite H, <- app_assoc.
Qed.


(** ** Columns and cells of the written rows *)

Lemma keys_set_congr {V} (o1 o2 : obj V) (k : string) (v1 v2 : V) :
  keys o1 = keys o2 -> keys (set k v1 o1) = keys (set k v2 o2).
Proof.
  revert o2. induction o1 as [|[k1 w1] o1 IH]; intros [|[k2 w2] o2]; simpl;
    try discriminate; [reflexivity|].
  intros [= -> H]. destruct (k =? k2); simpl; f_equal; auto.
Qed.

Lemma keys_fold_congr (col : string -> string) (val1 val2 : string -> value)
  (ls : list string) (row1 row2 : Row) :
  keys row1 = keys row2 ->
  keys (fold_left (fun row l => set (col l) (val1 l) row) ls row1)
  = keys (fold_left (fun row l => set (col l) (val2 l) row) ls row2).
Proof.
  revert row1 row2. induction ls as [|l ls IH]; intros row1 row2 H; simpl; auto.
  apply IH. now apply keys_set_congr.
Qed.

Lemma fold_set_get_other (col : string -> string) (val : string -> value)
  (ls : list string) (row : Row) (c : string) :
  (forall l, In l ls -> col l <> c) ->
  get (fold_left (fun row l => set (col l) (val l) row) ls row) c = get row c.
Proof.
  revert row. induction ls as [|l ls IH]; intros row H; simpl; [reflexivity|].
  rewrite IH by (intros; apply H; now right).
  apply get_set_other. apply H. now left.
Qed.

Lemma fold_set_get (col : string -> string) (val : string -> value)
  (ls : list string) (row : Row) (l : string) :
  In l ls -> (forall l', In l' ls -> col l' = col l -> l' = l) ->
  get (fold_left (fun row l => set (col l) (val l) row) ls row) (col l) = Some (val l).
Proof.
  revert row. induction ls as [|a ls IH]; intros row Hin Hinj; simpl; [contradiction|].
  destruct (in_dec string_dec l ls) as [Hl | Hl].
  - apply IH; [assumption|]. intros; apply Hinj; auto. now right.
  - destruct Hin as [-> | Hin]; [|contradiction].
    rewrite fold_set_get_other.
    + apply get_set_same.
    + intros l' Hl' Heq. apply Hl. rewrite <- (Hinj l'); auto. now right.
Qed.

Lemma writeTranslationRow_app (writer : Writer) (translationKey : option string)
  (m : TranslationMap) (keyColumn : string) (names : LocaleColumnNameMap) :
  writeTranslationRow writer translationKey m keyColumn names
  = writer ++ translationRowOf m keyColumn names translationKey.
Proof.
  reflexivity.
Qed.

(** The consolidated export, row by row. *)
Lemma generateTranslationFile_rows (m : TranslationMap) (translationKeys : list string)
  (keyColumn : string) (names : LocaleColumnNameMap) :
  generateTranslationFile m translationKeys keyColumn names
  = translationRowOf m keyColumn names None
    ++ flat_map (fun k => translationRowOf m keyColumn names (Some k)) translationKeys
    ++ translationRowOf m keyColumn names None.
Proof.
  unfold generateTranslationFile, createWriter.
  rewrite writeTranslationRow_app. simpl.
  assert (H : forall ks w,
             fold_left (fun w k => writeTranslationRow w (Some k) m keyColumn names) ks w
             = w ++ flat_map (fun k => translationRowOf m keyColumn names (Some k)) ks).
  { induction ks as [|k ks IH]; intros w; simpl.
    - now rewrite app_nil_r.
    - rewrite IH, writeTranslationRow_app, <- app_assoc. reflexivity. }
  rewrite H, writeTranslationRow_app, <- app_assoc. reflexivity.
Qed.

Lemma translationRowOf_In (m : TranslationMap) (translationKeys : list string)
  (keyColumn : string) (names : LocaleColumnNameMap) (row : Row) :
  In row (generateTranslationFile m translationKeys keyColumn names) ->
  exists k, translationRowOf m keyColumn names k = [row].
Proof.
  rewrite generateTranslationFile_rows, !in_app_iff, in_flat_map.
  intros [H | [[k [_ H]] | H]]; destruct H as [<- | []];
    [exists None | exists (Some k) | exists None]; reflexivity.
Qed.

(** X9: when no locale is named like an inherited member and no column
    name is an array index, every row of the consolidated export, the two
    separator rows included, has the same columns in the same order: the
    translation-key column first, then the columns of the locales. *)
Theorem X9_export_rows_share_their_columns (m : TranslationMap)
  (translationKeys : list string) (keyColumn : string) (names : LocaleColumnNameMap) :
  keyColumn <> "__proto__" ->
  (forall locale,
      In locale (keys m) ->
      inherited locale = false
      /\ allDigits (getLocaleColumnName locale names) = false) ->
  exists columns,
    (forall row,
        In row (generateTranslationFile m translationKeys keyColumn names) ->
        keys row = keyColumn :: columns)
    /\ (forall c,
           In c (keyColumn :: columns)
           <-> c = keyColumn
               \/ exists locale, In locale (keys m) /\ getLocaleColumnName locale names = c).
Proof.
  intros _ _.
  destruct (translationRowOf m keyColumn names None) as [|sep rest] eqn:Hsep;
    [discriminate|].
  injection Hsep as Hsep _.
  assert (Hhead : exists columns, keys sep = keyColumn :: columns).
  { subst sep. unfold forEachKeys.
    assert (H : forall ls (row : Row) cols,
               keys row = keyColumn :: cols ->
               exists columns,
                 keys (fold_left
                         (fun row l =>
                            set (getLocaleColumnName l names)
                              (prop (dictOf m l) (propName None)) row) ls row)
                 = keyColumn :: columns).
    { induction ls as [|l ls IH]; intros row cols Hrow; simpl; eauto.
      destruct row as [|[k0 v0] row]; [discriminate|]. simpl in Hrow.
      injection Hrow as -> Hrow.
      simpl. destruct (getLocaleColumnName l names =? keyColumn);
        eapply IH; reflexivity. }
    apply (H _ _ []). reflexivity. }
  destruct Hhead as [columns Hcols]. exists columns. split.
  - intros row Hrow. apply translationRowOf_In in Hrow as [k Hk].
    injection Hk as <-. rewrite <- Hcols. subst sep.
    unfold forEachKeys. now apply keys_fold_congr.
  - intros c. rewrite <- Hcols, <- has_true_iff. subst sep.
    unfold forEachKeys. rewrite columns_has.
    assert (H0 : has (set keyColumn (keyCell None) ([] : Row)) c = true <-> c = keyColumn).
    { rewrite has_set. unfold has. simpl. intuition (auto; discriminate). }
    simpl in H0 |- *. rewrite H0. tauto.
Qed.

(** X9 at scenario A with the default key column: the columns are
    [SYSTEM_KEY], [EN] and [FR]. *)
Lemma X9_export_rows_share_their_columns_witness :
  exists columns,
    (forall row,
        In row (generateTranslationFile Sample.greetings ["a"] "SYSTEM_KEY" []) ->
        keys row = "SYSTEM_KEY" :: columns)
    /\ (forall c,
           In c ("SYSTEM_KEY" :: columns)
           <-> c = "SYSTEM_KEY"
               \/ exists locale,
                   In locale (keys Sample.greetings) /\ getLocaleColumnName locale [] = c).
Proof.
  apply (@X9_export_rows_share_their_columns Sample.greetings ["a"] "SYSTEM_KEY" []).
  - discriminate.
  - simpl. intros locale [<- | [<- | []]]; split; reflexivity.
Defined.

Unset Implicit Arguments.

Lemma translation_row_cells (m : TranslationMap) (keyColumn : string)
  (names : LocaleColumnNameMap) (k : option string) (row : Row) :
  translationRowOf m keyColumn names k = [row] ->
  (forall l, In l (keys m) -> getLocaleColumnName l names <> keyColumn) ->
  (forall l l', In l (keys m) -> In l' (keys m) ->
                getLocaleColumnName l names = getLocaleColumnName l' names -> l = l') ->
  prop row keyColumn = keyCell k
  /\ forall l, In l (keys m) ->
               prop row (getLocaleColumnName l names) = prop (dictOf m l) (propName k).
Proof.
  intros [= <-] Hkey Hinj. unfold forEachKeys, prop. split.
  - rewrite fold_set_get_other by assumption. cbn [get set].
    now rewrite String.eqb_refl.
  - intros l Hl.
    rewrite (fold_set_get (fun l => getLocaleColumnName l names)
               (fun l => prop (dictOf m l) (propName k))); auto.
Qed.



(** ** The journal, cell by cell *)

Lemma journal_row_tag (m old : TranslationMap) (keyColumn : string)
  (names : LocaleColumnNameMap) (showOld : bool) (k : option string) (tag : value) :
  map (fun row => prop row "UPDATE_TYPE")
    (journalRowOf m old keyColumn names showOld k tag) = [tag].
Proof.
  unfold journalRowOf, writeJournalRow, write, prop. simpl.
  now rewrite get_set_same.
Qed.

Lemma map_flat_map_constant {A B C} (g : A -> list B) (f : B -> C) (c : C)
  (l : list A) :
  (forall a, map f (g a) = [c]) -> map f (flat_map g l) = map (fun _ => c) l.
Proof.
  intros H. induction l as [|a l IH]; simpl; [reflexivity|].
  now rewrite map_app, H, IH.
Qed.

Lemma journal_rows_tags (m old : TranslationMap) (keyColumn : string)
  (names : LocaleColumnNameMap) (showOld : bool) (ks : list string) (tag : value) :
  map (fun row => prop row "UPDATE_TYPE")
    (flat_map (fun k => journalRowOf m old keyColumn names showOld (Some k) tag) ks)
  = map (fun _ => tag) ks.
Proof.
  apply map_flat_map_constant. intros k. apply journal_row_tag.
Qed.


Lemma string_length_append (s t : string) :
  String.length (s ++ t)%string = String.length s + String.length t.
Proof.
  induction s as [|c s IH]; simpl; auto.
Qed.

Lemma append_cancel_r (s1 s2 t : string) : (s1 ++ t)%string = (s2 ++ t)%string -> s1 = s2.
Proof.
  revert s2. induction s1 as [|a s1 IH]; intros [|b s2] H; simpl in H.
  - reflexivity.
  - apply (f_equal String.length) in H. simpl in H.
    rewrite string_length_append in H. lia.
  - apply (f_equal String.length) in H. simpl in H.
    rewrite string_length_append in H. lia.
  - injection H as -> H. f_equal. now apply IH.
Qed.

(** No [_OLD] column is the [UPDATE_TYPE] column. *)
Lemma old_column_is_not_update_type (s : string) : (s ++ "_OLD")%string <> "UPDATE_TYPE".
Proof.
  intros H.
  do 11 (destruct s as [|? s]; simpl in H; [discriminate H | injection H as _ H]).
  destruct s; simpl in H; discriminate H.
Qed.

Lemma journal_row_keys (m old : TranslationMap) (keyColumn : string)
  (names : LocaleColumnNameMap) (showOld : bool) (k k' : option string)
  (tag tag' : value) (row row' : Row) :
  journalRowOf m old keyColumn names showOld k tag = [row] ->
  journalRowOf m old keyColumn names showOld k' tag' = [row'] ->
  keys row = keys row'.
Proof.
  unfold journalRowOf, writeJournalRow, write, forEachKeys.
  intros [= <-] [= <-]. apply keys_set_congr.
  destruct showOld; repeat apply keys_fold_congr; reflexivity.
Qed.

Lemma journal_row_columns (m old : TranslationMap) (keyColumn : string)
  (names : LocaleColumnNameMap) (showOld : bool) (k : option string) (tag : value)
  (row : Row) (c : string) :
  journalRowOf m old keyColumn names showOld k tag = [row] ->
  In c (keys row)
  <-> c = keyColumn
      \/ (exists l, In l (keys m) /\ getLocaleColumnName l names = c)
      \/ (showOld = true
          /\ exists l, In l (keys old)
                       /\ (getLocaleColumnName l names ++ "_OLD")%string = c)
      \/ c = "UPDATE_TYPE".
Proof.
  unfold journalRowOf, writeJournalRow, write, forEachKeys.
  intros [= <-]. rewrite <- has_true_iff, has_set.
  assert (H0 : has (set keyColumn (keyCell k) ([] : Row)) c = true <-> c = keyColumn).
  { rewrite has_set. unfold has. simpl. intuition (auto; discriminate). }
  destruct showOld.
  - rewrite (columns_has (fun l => (getLocaleColumnName l names ++ "_OLD")%string)).
    rewrite (columns_has (fun l => getLocaleColumnName l names)).
    rewrite H0. intuition (auto; discriminate).
  - rewrite (columns_has (fun l => getLocaleColumnName l names)).
    rewrite H0. intuition (auto; discriminate).
Qed.

Lemma journal_row_In (m old : TranslationMap) (inserted updated deleted : list string)
  (keyColumn : string) (names : LocaleColumnNameMap) (showDeleted showOld : bool)
  (row : Row) :
  In row (generateJournalFile m old inserted updated deleted keyColumn names
            showDeleted showOld) ->
  exists k tag, journalRowOf m old keyColumn names showOld k tag = [row].
Proof.
  rewrite generateJournalFile_rows, !in_app_iff, !in_flat_map.
  intros [H | [[k [_ H]] | [[k [_ H]] | [H | H]]]].
  - destruct H as [<- | []]. exists None, Undefined. reflexivity.
  - destruct H as [<- | []]. exists (Some k), UpdateType.INSERT. reflexivity.
  - destruct H as [<- | []]. exists (Some k), UpdateType.UPDATE. reflexivity.
  - destruct showDeleted; [|contradiction].
    apply in_flat_map in H as [k [_ [<- | []]]].
    exists (Some k), UpdateType.DELETE. reflexivity.
  - destruct H as [<- | []]. exists None, Undefined. reflexivity.
Qed.




(** ** Column names and locales *)

Lemma upper_upper_ascii (c : ascii) : upper_ascii (upper_ascii c) = upper_ascii c.
Proof.
  destruct c as [[] [] [] [] [] [] [] []]; reflexivity.
Qed.

Lemma upper_lower_ascii (c : ascii) : upper_ascii (lower_ascii c) = upper_ascii c.
Proof.
  destruct c as [[] [] [] [] [] [] [] []]; reflexivity.
Qed.

Lemma toUpperCase_idempotent (s : string) : toUpperCase (toUpperCase s) = toUpperCase s.
Proof.
  unfold toUpperCase. induction s as [|c s IH]; simpl; [reflexivity|].
  now rewrite upper_upper_ascii, IH.
Qed.

Lemma toUpperCase_toLowerCase (s : string) : toUpperCase (toLowerCase s) = toUpperCase s.
Proof.
  unfold toUpperCase, toLowerCase. induction s as [|c s IH]; simpl; [reflexivity|].
  now rewrite upper_lower_ascii, IH.
Qed.

(** X14: for ASCII names, a column name computed for a locale is in upper
    case: it is the upper-cased override when the locale has a non-empty
    override, and the upper-cased locale when the override is missing or
    empty and the locale is not named like an inherited member. *)
Theorem X14_column_names_are_upper_case (locale : string) (names : LocaleColumnNameMap) :
  (noColumnName (get names locale) = true -> inherited locale = false ->
   isAscii locale = true ->
   getColumnNameFromLocale locale names = toUpperCase locale
   /\ toUpperCase (getColumnNameFromLocale locale names)
      = getColumnNameFromLocale locale names)
  /\ (forall c, get names locale = Some c -> c <> "" -> isAscii c = true ->
                getColumnNameFromLocale locale names = toUpperCase c
                /\ toUpperCase (getColumnNameFromLocale locale names)
                   = getColumnNameFromLocale locale names).
Proof.
  unfold getColumnNameFromLocale. split.
  - intros -> _ _. split; [reflexivity | apply toUpperCase_idempotent].
  - intros c -> Hc _. apply String.eqb_neq in Hc. simpl. rewrite Hc.
    split; [reflexivity | apply toUpperCase_idempotent].
Qed.

(** X14 for the README override of [en]. *)
Lemma X14_column_names_are_upper_case_witness :
  getColumnNameFromLocale "en" Sample.readmeNames = toUpperCase "English"
  /\ toUpperCase (getColumnNameFromLocale "en" Sample.readmeNames)
     = getColumnNameFromLocale "en" Sample.readmeNames.
Proof.
  apply (proj2 (X14_column_names_are_upper_case "en" Sample.readmeNames) "English").
  - reflexivity.
  - discriminate.
  - reflexivity.
Defined.



(** X16: a non-empty ASCII upper-case header is read back under its own
    name: when no locale of the override map is named [hasOwnProperty], the
    column that the data callback reads for the locale recovered from the
    header is the header itself, if the header is some locale's override or
    if its lower-cased form has no override and is not the name of an
    inherited member. *)
Theorem X16_header_is_read_under_its_own_name (header : string)
  (names : LocaleColumnNameMap) :
  isAscii header = true -> toUpperCase header = header -> header <> "" ->
  has names "hasOwnProperty" = false ->
  (exists locale, get names locale = Some header)
  \/ (noColumnName (get names (toLowerCase header)) = true
      /\ inherited (toLowerCase header) = false) ->
  getColumnNameFromLocale (getLocaleFromColumnName header names) names = header.
Proof.
  intros _ Hup Hne _ Hcase. unfold getLocaleFromColumnName.
  destruct (findLocale header names names) as [found|] eqn:E.
  - apply findLocale_Some in E. unfold getColumnNameFromLocale. rewrite E. simpl.
    apply String.eqb_neq in Hne. now rewrite Hne.
  - destruct Hcase as [[locale Hl] | [Hno _]].
    + exfalso.
      apply (@findLocale_None header names names locale E); eauto using get_Some_keys.
    + unfold getColumnNameFromLocale. rewrite Hno.
      now rewrite toUpperCase_toLowerCase.
Qed.

(** X16 for the column [ENGLISH] written under the README override: it is
    attributed to the locale [english], whose column is [ENGLISH] again. *)
Lemma X16_header_is_read_under_its_own_name_witness :
  getColumnNameFromLocale (getLocaleFromColumnName "ENGLISH" Sample.readmeNames)
    Sample.readmeNames = "ENGLISH".
Proof.
  apply (X16_header_is_read_under_its_own_name "ENGLISH" Sample.readmeNames).
  - reflexivity.
  - reflexivity.
  - discriminate.
  - reflexivity.
  - right. split; reflexivity.
Defined.
(** ** The snapshot reconstructor: data rows *)

Lemma keys_set_present {V} (o : obj V) (k : string) (v : V) :
  In k (keys o) -> keys (set k v o) = keys o.
Proof.
  induction o as [|[k' v'] o IH]; simpl; [tauto|].
  destruct (k =? k') eqn:E; simpl; [reflexivity|].
  intros [-> | Hin]; [now rewrite String.eqb_refl in E | now rewrite IH].
Qed.

Lemma fold_left_fixed {A B} (f : A -> B -> A) (l : list B) (a : A) :
  (forall a b, f a b = a) -> fold_left f l a = a.
Proof.
  intros H. induction l as [|b l IH]; simpl; [reflexivity|]. now rewrite H.
Qed.

(** X17: a data row whose translation-key cell is missing or empty, such as
    the separator rows of an export, leaves the previous map as it is. *)
Theorem X17_rows_without_key_are_skipped (opts : Options) (m : TranslationMap)
  (data : Data) :
  truthy (cell data (translationKeyColumnName opts)) = false ->
  onData opts m data = m.
Proof.
  unfold onData, forEachKeys, cell. intros Hfalsy.
  apply fold_left_fixed. intros acc l.
  destruct (get data (translationKeyColumnName opts)) as [key|]; [|reflexivity].
  now rewrite Hfalsy.
Qed.

(** X17 on a row whose [SYSTEM_KEY] cell is empty. *)
Lemma X17_rows_without_key_are_skipped_witness :
  onData (defaultOpts "") Sample.hi [("SYSTEM_KEY", ""); ("EN", "")] = Sample.hi.
Proof.
  apply (X17_rows_without_key_are_skipped (defaultOpts "") Sample.hi
           [("SYSTEM_KEY", ""); ("EN", "")]).
  reflexivity.
Defined.

Section DataRow.

Variable opts : Options.
Variable data : Data.
Variable key : string.

Local Abbreviation fill := (fillLocale opts data key).

Lemma fill_fold (ls : list string) (acc : TranslationMap) :
  (forall l, In l ls -> In l (keys acc)) ->
  keys (fold_left fill ls acc) = keys acc
  /\ (forall l, ~ In l ls -> get (fold_left fill ls acc) l = get acc l)
  /\ (forall l, In l ls ->
        get (dictOf (fold_left fill ls acc) l) key
        = Some (cell data (getColumnNameFromLocale l (localeColumnNames opts)))
        /\ forall k, k <> key ->
             get (dictOf (fold_left fill ls acc) l) k = get (dictOf acc l) k).
Proof.
  revert acc. induction ls as [|a ls IH]; intros acc Hsub.
  - simpl. repeat split; tauto.
  - cbn [fold_left].
    assert (Hkeys : keys (fill acc a) = keys acc)
      by (apply keys_set_present, Hsub; now left).
    destruct (IH (fill acc a)) as [IH1 [IH2 IH3]].
    { intros l Hl. rewrite Hkeys. apply Hsub. now right. }
    split; [congruence|]. split.
    + intros l Hl. rewrite IH2 by (intros H; apply Hl; now right).
      apply get_set_other. intros ->. apply Hl. now left.
    + intros l Hl.
      destruct (in_dec string_dec l ls) as [Hin | Hnot].
      * destruct (IH3 l Hin) as [Hv Hk]. split; [exact Hv|].
        intros k Hne. rewrite (Hk k Hne). unfold dictOf, fillLocale.
        destruct (string_dec a l) as [-> | Hal].
        -- rewrite get_set_same. now apply get_set_other.
        -- now rewrite get_set_other.
      * destruct Hl as [-> | Hl]; [|contradiction].
        assert (Hd : dictOf (fold_left fill ls (fill acc l)) l
                     = set key
                         (cell data (getColumnNameFromLocale l (localeColumnNames opts)))
                         (dictOf acc l)).
        { unfold dictOf at 1. rewrite (IH2 l Hnot). unfold fillLocale.
          now rewrite get_set_same. }
        rewrite Hd. split.
        -- apply get_set_same.
        -- intros k Hne. now apply get_set_other.
Qed.

End DataRow.



(** ** From the export back to the locales *)

Lemma set_absent {V} (o : obj V) (k : string) (v : V) :
  ~ In k (keys o) -> set k v o = o ++ [(k, v)].
Proof.
  induction o as [|[k' v'] o IH]; simpl; intros Hnot; [reflexivity|].
  destruct (k =? k') eqn:E.
  - apply String.eqb_eq in E. subst. tauto.
  - f_equal. apply IH. tauto.
Qed.

Lemma keys_fold_fresh (col : string -> string) (val : string -> value)
  (ls : list string) (row : Row) :
  NoDup (map col ls) -> (forall l, In l ls -> ~ In (col l) (keys row)) ->
  keys (fold_left (fun row l => set (col l) (val l) row) ls row)
  = keys row ++ map col ls.
Proof.
  revert row. induction ls as [|l ls IH]; intros row Hnd Hfresh; simpl.
  - now rewrite app_nil_r.
  - inversion Hnd as [|? ? Hl Hnd']. subst.
    assert (Hset : keys (set (col l) (val l) row) = keys row ++ [col l]).
    { rewrite set_absent by (apply Hfresh; now left).
      unfold keys. now rewrite map_app. }
    rewrite IH; [now rewrite Hset, <- app_assoc | assumption |].
    intros l' Hl'. rewrite Hset, in_app_iff. intros [H | [H | []]].
    + apply (Hfresh l'); [now right | assumption].
    + apply Hl. rewrite H. now apply in_map.
Qed.

Lemma NoDup_map_on {A B} (f : A -> B) (l : list A) :
  NoDup l -> (forall x y, In x l -> In y l -> f x = f y -> x = y) -> NoDup (map f l).
Proof.
  induction 1 as [|a l Ha Hnd IH]; intros Hinj; simpl; constructor.
  - intros Hin. apply in_map_iff in Hin as [y [Hy Hin]].
    apply Ha. rewrite <- (Hinj y a); auto. now right. now left.
  - apply IH. intros x y Hx Hy. apply Hinj; now right.
Qed.

Lemma headers_of_locales (opts : Options) (ls : list string) (acc : TranslationMap)
  (b : bool) :
  localeColumnNames opts = [] -> NoDup ls ->
  (forall l, In l ls ->
             toLowerCase l = l /\ toUpperCase l <> translationKeyColumnName opts
             /\ inherited l = false /\ ~ In l (keys acc)) ->
  fold_left (headerStep opts) (map toUpperCase ls) (acc, b)
  = (acc ++ map (fun l => (l, [])) ls, b).
Proof.
  intros Hnames. revert acc. induction ls as [|l ls IH]; intros acc Hnd Hall.
  - simpl. now rewrite app_nil_r.
  - inversion Hnd as [|? ? Hl Hnd']. subst.
    destruct (Hall l) as [Hlow [Hkey [Hown Hfresh]]]; [now left|].
    cbn [map fold_left]. unfold headerStep at 2. rewrite Hnames.
    apply String.eqb_neq in Hkey. rewrite Hkey. cbn [negb].
    unfold getLocaleFromColumnName. cbn [findLocale].
    rewrite toLowerCase_toUpperCase, Hlow.
    assert (Hhas : has acc l = false).
    { destruct (has acc l) eqn:E; [|reflexivity]. apply has_true_iff in E. tauto. }
    unfold isCreated. rewrite Hhas, Hown. cbn [orb negb].
    rewrite set_absent by assumption.
    rewrite IH; [now rewrite <- app_assoc | assumption |].
    intros l' Hl'. destruct (Hall l') as [H1 [H2 [H3 H4]]]; [now right|].
    repeat split; auto.
    unfold keys. rewrite map_app, in_app_iff. intros [H | [H | []]]; [now apply H4|].
    simpl in H. subst. contradiction.
Qed.

(** X19: with the default column names, a translation-key column that is
    no locale's column, and pairwise different locales that are ASCII
    lower-case names, neither array indices nor names of inherited members,
    the header callback run on the columns of any row of the consolidated
    export gives back the locales of the exported map, in their order, each
    with an empty dictionary. *)
Theorem X19_export_headers_give_back_the_locales (opts : Options) (m : TranslationMap)
  (translationKeys : list string) (row : Row) :
  localeColumnNames opts = [] ->
  translationKeyColumnName opts <> "__proto__" ->
  NoDup (keys m) ->
  (forall l, In l (keys m) ->
             isAscii l = true /\ allDigits l = false /\ inherited l = false
             /\ toLowerCase l = l /\ toUpperCase l <> translationKeyColumnName opts) ->
  In row (generateTranslationFile m translationKeys (translationKeyColumnName opts)
            (localeColumnNames opts)) ->
  onHeaders opts [] (keys row) = Ok (map (fun l => (l, [])) (keys m)).
Proof.
  intros Hnames _ Hnd Hall Hrow.
  assert (Hinj : forall x y, In x (keys m) -> In y (keys m) ->
                             toUpperCase x = toUpperCase y -> x = y).
  { intros x y Hx Hy Heq. apply (f_equal toLowerCase) in Heq.
    rewrite !toLowerCase_toUpperCase in Heq.
    destruct (Hall x Hx) as [_ [_ [_ [Hx' _]]]].
    destruct (Hall y Hy) as [_ [_ [_ [Hy' _]]]]. congruence. }
  assert (Hkeys : keys row
                  = translationKeyColumnName opts :: map toUpperCase (keys m)).
  { apply translationRowOf_In in Hrow as [k Hk]. rewrite Hnames in Hk.
    injection Hk as <-. unfold forEachKeys.
    rewrite (keys_fold_fresh (fun l => getLocaleColumnName l [])).
    - reflexivity.
    - apply (NoDup_map_on (fun l => getLocaleColumnName l [])); [assumption|].
      exact Hinj.
    - intros l Hl [H | []]. destruct (Hall l Hl) as [_ [_ [_ [_ Hk]]]]. apply Hk.
      symmetry. exact H. }
  rewrite Hkeys. unfold onHeaders. cbn [fold_left]. unfold headerStep at 2.
  rewrite String.eqb_refl. cbn [negb].
  rewrite headers_of_locales; [reflexivity | assumption | assumption |].
  intros l Hl. destruct (Hall l Hl) as [_ [_ [H3 [H4 H5]]]]. repeat split; auto.
Qed.

(** X19 at scenario A and the default options. *)
Lemma X19_export_headers_give_back_the_locales_witness :
  onHeaders (defaultOpts "") []
    [translationKeyColumnName (defaultOpts ""); "EN"; "FR"]
  = Ok (map (fun l => (l, [])) (keys Sample.greetings)).
Proof.
  apply (X19_export_headers_give_back_the_locales (defaultOpts "") Sample.greetings
           ["a"]
           [(translationKeyColumnName (defaultOpts ""), Str "a"); ("EN", Str "hi");
            ("FR", Str "salut")]).
  - reflexivity.
  - discriminate.
  - repeat constructor; simpl; intuition discriminate.
  - intros l [<- | [<- | []]]; repeat split; (reflexivity || discriminate).
  - simpl. auto.
Defined.
(** ** The translation loader, file by file *)

Section LoaderFacts.

Variable getFlattenTranslations : string -> result LocaleDict.
Variable readFileSync : string -> option string.
Variables inputDir inputFile : string.

Local Abbreviation load := (loadLocale getFlattenTranslations readFileSync inputDir inputFile).

Lemma load_malformed (locales : list string) (acc : TranslationMap) (locale data : string)
  (e : error) :
  In locale locales ->
  readFileSync (translationFilePath inputDir locale inputFile) = Some data ->
  getFlattenTranslations data = Throw e ->
  exists e', forEachKeysM locales load acc = Throw e'.
Proof.
  intros Hin Hfile Hparse. revert acc.
  induction locales as [|l locales IH]; intros acc; [contradiction|].
  cbn [forEachKeysM]. destruct (load acc l) as [acc1|e1] eqn:E; [|simpl; eauto].
  cbn [bind]. destruct Hin as [-> | Hin]; [|now apply IH].
  unfold loadLocale in E. rewrite Hfile, Hparse in E. discriminate.
Qed.

Lemma load_parsed (locales : list string) (acc r : TranslationMap) (locale data : string)
  (flat : LocaleDict) :
  forEachKeysM locales load acc = Ok r ->
  readFileSync (translationFilePath inputDir locale inputFile) = Some data ->
  getFlattenTranslations data = Ok flat ->
  In locale locales \/ get acc locale = Some flat ->
  get r locale = Some flat.
Proof.
  intros Hr Hfile Hparse. revert acc Hr.
  induction locales as [|l locales IH]; intros acc Hr Hwhere; simpl in Hr.
  - injection Hr as <-. destruct Hwhere as [[] | H]; assumption.
  - destruct (load acc l) as [acc1|e] eqn:E; simpl in Hr; [|discriminate].
    apply (IH acc1 Hr). unfold loadLocale in E.
    destruct (string_dec l locale) as [-> | Hne].
    + right. rewrite Hfile, Hparse in E. simpl in E. injection E as <-.
      apply get_set_same.
    + destruct Hwhere as [[Heq | Hin] | Hget]; [contradiction | now left | right].
      destruct (readFileSync (translationFilePath inputDir l inputFile)) as [d|].
      * destruct (getFlattenTranslations d) as [f|]; simpl in E; [|discriminate].
        injection E as <-. now rewrite get_set_other.
      * injection E as <-. now rewrite get_set_other.
Qed.

Lemma load_keys (locales : list string) (acc r : TranslationMap) :
  forEachKeysM locales load acc = Ok r ->
  NoDup locales -> (forall l, In l locales -> ~ In l (keys acc)) ->
  keys r = keys acc ++ locales.
Proof.
  revert acc. induction locales as [|l locales IH]; intros acc Hr Hnd Hfresh;
    simpl in Hr.
  - injection Hr as <-. now rewrite app_nil_r.
  - destruct (load acc l) as [acc1|e] eqn:E; simpl in Hr; [|discriminate].
    inversion Hnd as [|? ? Hl Hnd']. subst.
    assert (Hkeys : keys acc1 = keys acc ++ [l]).
    { unfold loadLocale in E.
      destruct (readFileSync (translationFilePath inputDir l inputFile)) as [d|].
      - destruct (getFlattenTranslations d) as [f|]; simpl in E; [|discriminate].
        injection E as <-. rewrite set_absent by (apply Hfresh; now left).
        unfold keys. now rewrite map_app.
      - injection E as <-. rewrite set_absent by (apply Hfresh; now left).
        unfold keys. now rewrite map_app. }
    rewrite (IH acc1 Hr Hnd'); [now rewrite Hkeys, <- app_assoc|].
    intros l' Hl'. rewrite Hkeys, in_app_iff. intros [H | [H | []]].
    + apply (Hfresh l'); [now right | assumption].
    + subst. contradiction.
Qed.

End LoaderFacts.

(** X20: a translation file that cannot be parsed is fatal: the loader
    throws, whatever the other locales hold, and so does the whole run. *)
Theorem X20_malformed_translation_file_is_fatal (wordCount : value -> Z)
  (getFlattenTranslations : string -> result LocaleDict)
  (readdirSync : string -> list string) (isDirectory : string -> bool)
  (readFileSync : string -> option string)
  (readCsv : string -> option (list string * list Data)) (opts : Options)
  (locale data : string) (e : error) :
  In locale (getLocales readdirSync isDirectory (inputDir opts)) ->
  readFileSync (translationFilePath (inputDir opts) locale (inputFile opts)) = Some data ->
  getFlattenTranslations data = Throw e ->
  exists e',
    getTranslationMap getFlattenTranslations readdirSync isDirectory readFileSync
      (inputDir opts) (inputFile opts) = Throw e'
    /\ exportTranslations wordCount getFlattenTranslations readdirSync isDirectory
         readFileSync readCsv opts = Throw e'.
Proof.
  intros Hin Hfile Hparse.
  destruct (load_malformed getFlattenTranslations readFileSync (inputDir opts)
              (inputFile opts) _ [] locale data e Hin Hfile Hparse) as [e' He'].
  exists e'. split; [exact He'|].
  unfold exportTranslations. unfold getTranslationMap in He' |- *. now rewrite He'.
Qed.

(** X20 on the sample locale tree with a parser that rejects everything. *)
Lemma X20_malformed_translation_file_is_fatal_witness :
  exists e',
    getTranslationMap (fun _ => Throw (Error "Unable to parse the translations."))
      Sample.readdirSync Sample.isDirectory Sample.readFileSync
      (inputDir (defaultOpts "")) (inputFile (defaultOpts "")) = Throw e'
    /\ exportTranslations (fun _ => 0%Z)
         (fun _ => Throw (Error "Unable to parse the translations."))
         Sample.readdirSync Sample.isDirectory Sample.readFileSync (fun _ => None)
         (defaultOpts "") = Throw e'.
Proof.
  apply (X20_malformed_translation_file_is_fatal (fun _ => 0%Z)
           (fun _ => Throw (Error "Unable to parse the translations."))
           Sample.readdirSync Sample.isDirectory Sample.readFileSync (fun _ => None)
           (defaultOpts "") "en" "export default { a: 'hi' };"
           (Error "Unable to parse the translations.")).
  - vm_compute. auto.
  - reflexivity.
  - reflexivity.
Defined.

(** X21: when the loader returns and the directory listing has no repeated
    name, no name that is an array index and no [__proto__], the translation
    map has exactly the listed locale directories, in the order of the
    listing, and the dictionary of a locale whose file exists is the
    flattened content of that file. *)
Theorem X21_loader_keeps_listing_order_and_parsed_files
  (getFlattenTranslations : string -> result LocaleDict)
  (readdirSync : string -> list string) (isDirectory : string -> bool)
  (readFileSync : string -> option string) (inputDir inputFile : string)
  (translationMap : TranslationMap) :
  getTranslationMap getFlattenTranslations readdirSync isDirectory readFileSync
    inputDir inputFile = Ok translationMap ->
  NoDup (getLocales readdirSync isDirectory inputDir) ->
  (forall locale,
      In locale (getLocales readdirSync isDirectory inputDir) ->
      allDigits locale = false /\ locale <> "__proto__") ->
  keys translationMap = getLocales readdirSync isDirectory inputDir
  /\ forall locale data,
       In locale (getLocales readdirSync isDirectory inputDir) ->
       readFileSync (translationFilePath inputDir locale inputFile) = Some data ->
       exists flat,
         getFlattenTranslations data = Ok flat /\ get translationMap locale = Some flat.
Proof.
  unfold getTranslationMap. intros Hmap Hnd _. split.
  - apply (load_keys getFlattenTranslations readFileSync inputDir inputFile
             _ [] translationMap Hmap Hnd). intros l _ [].
  - intros locale data Hin Hfile.
    destruct (getFlattenTranslations data) as [flat|e] eqn:Hparse.
    + exists flat. split; [reflexivity|].
      apply (load_parsed getFlattenTranslations readFileSync inputDir inputFile
               _ [] translationMap locale data flat Hmap Hfile Hparse). now left.
    + destruct (load_malformed getFlattenTranslations readFileSync inputDir inputFile
                  _ [] locale data e Hin Hfile Hparse) as [e' He'].
      congruence.
Qed.

(** X21 on the sample locale tree. *)
Lemma X21_loader_keeps_listing_order_and_parsed_files_witness :
  keys [("en", [("a", Str "hi")]); ("fr", [])]
  = getLocales Sample.readdirSync Sample.isDirectory "app/locales/"
  /\ forall locale data,
       In locale (getLocales Sample.readdirSync Sample.isDirectory "app/locales/") ->
       Sample.readFileSync (translationFilePath "app/locales/" locale "translations.js")
       = Some data ->
       exists flat,
         Sample.getFlattenTranslations data = Ok flat
         /\ get [("en", [("a", Str "hi")]); ("fr", [])] locale = Some flat.
Proof.
  apply (X21_loader_keeps_listing_order_and_parsed_files Sample.getFlattenTranslations
           Sample.readdirSync Sample.isDirectory Sample.readFileSync
           "app/locales/" "translations.js").
  - reflexivity.
  - vm_compute. repeat constructor; simpl; intuition discriminate.
  - vm_compute. intros locale [<- | [<- | []]]; split; (reflexivity || discriminate).
Defined.

(** ** The metadata summary, row by row *)

Lemma word_sum (f : string -> Z) (ks : list string) (c : Z) :
  fold_left (fun c k => (c + f k)%Z) ks c = (c + fold_right Z.add 0%Z (map f ks))%Z.
Proof.
  revert c. induction ks as [|k ks IH]; intros c; simpl; [lia|].
  rewrite IH. lia.
Qed.

(** X22: the metadata summary is a blank row followed by one row per locale
    of the translation map, in the map's order; the row of a locale names the
    locale and holds, as its number of words, the sum of the word counts of
    all the values of the locale, empty ones included. *)
Theorem X22_metadata_rows_sum_the_word_counts (wordCount : value -> Z)
  (m : TranslationMap) :
  map (fun row => (prop row "LOCALE", prop row "NUMBER_OF_WORDS"))
    (generateTranslationMetaFile wordCount m)
  = (Str "", Str "")
    :: map (fun locale =>
              (Str locale,
               Num (fold_right Z.add 0%Z
                      (map (fun k => wordCount (prop (dictOf m locale) k))
                         (keys (dictOf m locale))))))
         (keys m).
Proof.
  unfold generateTranslationMetaFile, forEachKeys, createWriter.
  assert (H : forall ls w,
             map (fun row => (prop row "LOCALE", prop row "NUMBER_OF_WORDS"))
               (fold_left (fun w l => writeMetaDataRow wordCount w l m) ls w)
             = map (fun row => (prop row "LOCALE", prop row "NUMBER_OF_WORDS")) w
               ++ map (fun locale =>
                         (Str locale,
                          Num (fold_right Z.add 0%Z
                                 (map (fun k => wordCount (prop (dictOf m locale) k))
                                    (keys (dictOf m locale))))))
                    ls).
  { induction ls as [|l ls IH]; intros w; cbn [fold_left map];
      [now rewrite app_nil_r|].
    rewrite IH. unfold writeMetaDataRow, write, forEachKeys.
    rewrite map_app, <- app_assoc, word_sum. reflexivity. }
  rewrite H. reflexivity.
Qed.

Lemma legacy_count (wordCount : value -> Z) (d : LocaleDict) (ks : list string)
  (words count : Z) :
  (forall k, In k ks -> has d k = true) ->
  fold_left
    (fun (st : Z * Z) translationKey =>
       let '(localeWordCount, keyCount) := st in
       let keyCount := (keyCount + 1)%Z in
       if has d translationKey
       then ((localeWordCount + wordCount (prop d translationKey))%Z, keyCount)
       else (localeWordCount, keyCount))
    ks (words, count)
  = (fold_left (fun c k => (c + wordCount (prop d k))%Z) ks words,
     (count + Z.of_nat (length ks))%Z).
Proof.
  revert words count. induction ks as [|k ks IH]; intros words count Hown.
  - simpl. f_equal. lia.
  - cbn [fold_left]. rewrite (Hown k) by now left.
    rewrite IH by (intros; apply Hown; now right).
    f_equal. cbn [length]. lia.
Qed.


(** ** The run as a whole *)

(** X24: whenever a run succeeds, with or without a previous export, the
    consolidated export and the metadata summary are those of the freshly
    loaded translation map alone; without a previous export no journal is
    written. *)
Theorem X24_export_does_not_depend_on_the_previous_snapshot (wordCount : value -> Z)
  (getFlattenTranslations : string -> result LocaleDict)
  (readdirSync : string -> list string) (isDirectory : string -> bool)
  (readFileSync : string -> option string)
  (readCsv : string -> option (list string * list Data)) (opts : Options)
  (out : Outputs) :
  exportTranslations wordCount getFlattenTranslations readdirSync isDirectory
    readFileSync readCsv opts = Ok out ->
  exists translationMap translationKeys,
    getTranslationMap getFlattenTranslations readdirSync isDirectory readFileSync
      (inputDir opts) (inputFile opts) = Ok translationMap
    /\ getTranslationKeys translationMap = Ok translationKeys
    /\ translationFile out
       = generateTranslationFile translationMap translationKeys
           (translationKeyColumnName opts) (localeColumnNames opts)
    /\ metaData out = generateTranslationMetaFile wordCount translationMap
    /\ (readCsv (outputDir opts ++ "/" ++ outputFile opts)%string = None ->
        journal out = None).
Proof.
  unfold exportTranslations.
  destruct (getTranslationMap _ _ _ _ _ _) as [tm|e]; cbn [bind]; [|discriminate].
  destruct (getTranslationKeys tm) as [translationKeys|e] eqn:Hkeys; cbn [bind];
    [|discriminate].
  intros H. exists tm, translationKeys.
  split; [reflexivity|]. split; [exact Hkeys|].
  destruct (readCsv _) as [[headers rows]|].
  - destruct (onHeaders opts [] headers) as [old|e]; cbn [bind] in H; [|discriminate].
    unfold onEnd in H.
    destruct (getInsertedTranslationKeys _ tm) as [inserted|e]; cbn [bind] in H;
      [|discriminate].
    destruct (getUpdatedTranslationKeys _ tm) as [updated|e]; cbn [bind] in H;
      [|discriminate].
    destruct (getDeletedTranslationKeys _ tm) as [deleted|e]; cbn [bind] in H;
      [|discriminate].
    injection H as <-. repeat split. discriminate.
  - injection H as <-. repeat split.
Qed.

(** X24 on a first run over the sample locale tree. *)
Lemma X24_export_does_not_depend_on_the_previous_snapshot_witness :
  exists translationMap translationKeys,
    getTranslationMap Sample.getFlattenTranslations Sample.readdirSync
      Sample.isDirectory Sample.readFileSync
      (inputDir (defaultOpts "")) (inputFile (defaultOpts "")) = Ok translationMap
    /\ getTranslationKeys translationMap = Ok translationKeys
    /\ generateTranslationFile [("en", [("a", Str "hi")]); ("fr", [])] ["a"]
         "SYSTEM_KEY" []
       = generateTranslationFile translationMap translationKeys
           (translationKeyColumnName (defaultOpts ""))
           (localeColumnNames (defaultOpts "")).
Proof.
  destruct (X24_export_does_not_depend_on_the_previous_snapshot (fun _ => 0%Z)
              Sample.getFlattenTranslations Sample.readdirSync Sample.isDirectory
              Sample.readFileSync (fun _ => None) (defaultOpts "")
              {| translationFile :=
                   generateTranslationFile [("en", [("a", Str "hi")]); ("fr", [])]
                     ["a"] "SYSTEM_KEY" [];
                 journal := None;
                 metaData :=
                   generateTranslationMetaFile (fun _ => 0%Z)
                     [("en", [("a", Str "hi")]); ("fr", [])] |})
    as [tm [ks [Hmap [Hkeys [Hfile _]]]]].
  - reflexivity.
  - exists tm, ks. split; [exact Hmap|]. split; [exact Hkeys | exact Hfile].
Defined.

(** ** The object literal of a translation file *)

Lemma string_append_assoc (a b c : string) :
  ((a ++ b) ++ c)%string = (a ++ (b ++ c))%string.
Proof.
  induction a as [|x a IH]; simpl; [reflexivity | now rewrite IH].
Qed.

Lemma indexOf_append (c : ascii) (pre rest : string) :
  Parser.indexOf c pre = None ->
  Parser.indexOf c (pre ++ String c rest) = Some (String.length pre).
Proof.
  induction pre as [|a pre IH]; simpl.
  - intros _. now rewrite Ascii.eqb_refl.
  - destruct (Ascii.eqb a c); [discriminate|].
    destruct (Parser.indexOf c pre); [discriminate|].
    intros _. now rewrite IH.
Qed.

Lemma lastIndexOf_append (c : ascii) (front post : string) :
  Parser.lastIndexOf c post = None ->
  Parser.lastIndexOf c (front ++ String c post) = Some (String.length front).
Proof.
  intros Hpost. induction front as [|a front IH]; simpl.
  - now rewrite Hpost, Ascii.eqb_refl.
  - now rewrite IH.
Qed.

Lemma substring_skip (pre s : string) (n : nat) :
  String.substring (String.length pre) n (pre ++ s) = String.substring 0 n s.
Proof.
  induction pre as [|a pre IH]; simpl; [reflexivity | exact IH].
Qed.

Lemma substring_take (x y : string) (k : nat) :
  String.substring 0 (String.length x + k) (x ++ y)
  = (x ++ String.substring 0 k y)%string.
Proof.
  induction x as [|a x IH]; simpl; [reflexivity | now rewrite IH].
Qed.

Lemma substring_nothing (s : string) : String.substring 0 0 s = EmptyString.
Proof.
  destruct s; reflexivity.
Qed.

(** X25: a translation file without an opening or without a closing brace is
    rejected before [JSON.parse] is called, and so is it by the flattening
    step; in a file made of text without [{], an object literal, and text
    without [}], exactly the literal, braces included, is handed to
    [JSON.parse]. *)
Theorem X25_the_object_literal_is_cut_out (json : Type)
  (JSON_parse : string -> result json) (isTruthy : json -> bool)
  (flatten : json -> option LocaleDict) :
  (forall data,
      Parser.indexOf "{" data = None \/ Parser.lastIndexOf "}" data = None ->
      Parser.getTranslations JSON_parse isTruthy data
      = Throw (Error "Unable to parse the translations.")
      /\ Parser.getFlattenTranslations JSON_parse isTruthy flatten data
         = Throw (Error "Unable to parse the translations."))
  /\ (forall pre body post,
         Parser.indexOf "{" pre = None -> Parser.lastIndexOf "}" post = None ->
         Parser.getTranslations JSON_parse isTruthy
           (pre ++ "{" ++ body ++ "}" ++ post)%string
         = (translations <- JSON_parse ("{" ++ body ++ "}")%string ;;
            if negb (isTruthy translations)
            then Throw (Error "Unable to parse the translations.")
            else Ok translations)).
Proof.
  split.
  - intros data Hmissing.
    assert (H : Parser.getTranslations JSON_parse isTruthy data
                = Throw (Error "Unable to parse the translations.")).
    { unfold Parser.getTranslations.
      destruct Hmissing as [-> | ->]; [reflexivity|].
      destruct (Parser.indexOf "{" data); reflexivity. }
    split; [exact H|]. unfold Parser.getFlattenTranslations. now rewrite H.
  - intros pre body post Hpre Hpost. unfold Parser.getTranslations.
    change (pre ++ "{" ++ body ++ "}" ++ post)%string
      with (pre ++ String "{" (body ++ String "}" post))%string.
    rewrite (indexOf_append "{" pre _ Hpre).
    assert (Hfront : (pre ++ String "{" (body ++ String "}" post))%string
                     = ((pre ++ String "{" body) ++ String "}" post)%string).
    { now rewrite string_append_assoc. }
    rewrite Hfront at 1. rewrite (lastIndexOf_append "}" _ post Hpost).
    unfold Parser.substring. rewrite string_length_append. cbn [String.length].
    replace (Nat.min (String.length pre) (String.length pre + S (String.length body) + 1))
      with (String.length pre) by lia.
    replace (Nat.max (String.length pre) (String.length pre + S (String.length body) + 1)
             - String.length pre)
      with (S (String.length body + 1)) by lia.
    rewrite substring_skip. cbn [String.substring].
    rewrite substring_take. cbn [String.substring].
    now rewrite substring_nothing.
Qed.

(** X25 on a translation module of ember-i18n. *)
Lemma X25_the_object_literal_is_cut_out_witness :
  Parser.getTranslations (fun s => Ok s) (fun s => negb (s =? "")%string)
    ("export default " ++ "{" ++ " a: 1 " ++ "}" ++ ";")%string
  = Ok "{ a: 1 }".
Proof.
  apply (proj2 (X25_the_object_literal_is_cut_out string (fun s => Ok s)
                  (fun s => negb (s =? "")%string) (fun _ => None))
           "export default " " a: 1 " ";"); reflexivity.
Defined.

(** ** Updated keys, read as a set *)


